(** * random_cube.py: a grid of axis-aligned prisms, carved and meshed

    A shallow embedding of [src/random_cube.py]: the [Orientation] enum,
    the [Rectangle] and [Prism] dataclasses, and the [PrismGraph] class with
    its constructor, [delete_prism] and [to_mesh].

    Numbers are rationals ([Q]): exact arithmetic, comparisons by [==].
    Python lists are lists, indexed by [!!]; a subscript out of range raises
    [IndexError], modelled by [None] in the [option] monad.  Indices are
    [nat]: Python's negative subscripts are outside the model.  The
    [neighbour_map] dict is a [gmap] keyed by [Orientation]. *)

From Stdlib Require Import QArith Lqa ZArith Lia.
From stdpp Require Import base option list countable gmap fin_maps.

Set Default Proof Using "Type".

(** ** Orientation *)

Inductive Orientation := DOWN | UP | LEFT | RIGHT | INTO | OUT_OF.

#[global] Instance Orientation_eq_dec : EqDecision Orientation.
Proof. solve_decision. Defined.

(** Iteration order of [for o in Orientation]: the order of definition. *)
Definition all_orientations : list Orientation :=
  [DOWN; UP; LEFT; RIGHT; INTO; OUT_OF].

Definition Orientation_code (o : Orientation) : nat :=
  match o with
  | DOWN => 0 | UP => 1 | LEFT => 2 | RIGHT => 3 | INTO => 4 | OUT_OF => 5
  end.

Definition Orientation_decode (n : nat) : Orientation :=
  match n with
  | 0 => DOWN | 1 => UP | 2 => LEFT | 3 => RIGHT | 4 => INTO | _ => OUT_OF
  end.

#[global] Instance Orientation_countable : Countable Orientation.
Proof.
  apply (inj_countable' Orientation_code Orientation_decode).
  intros []; reflexivity.
Defined.

(** [grid[x][y][z]]; [None] is the [IndexError] of a subscript out of range. *)
Definition index3 {A} (grid : list (list (list A))) (x y z : nat) : option A :=
  gx ← grid !! x; gy ← gx !! y; gy !! z.

(** [Orientation.get_neighbour].  The outer [option] is the exception, the
    inner one Python's [None]. *)
Definition get_neighbour {A} (self : Orientation)
    (grid : list (list (list A))) (x y z : nat) : option (option A) :=
  match self with
  | UP =>
      gx ← grid !! x;
      if bool_decide (Z.of_nat y ≠ (Z.of_nat (length gx) - 1)%Z)
      then Some <$> index3 grid x (y + 1) z
      else Some None
  | DOWN =>
      if bool_decide (y ≠ 0)
      then Some <$> index3 grid x (y - 1) z
      else Some None
  | LEFT =>
      if bool_decide (x ≠ 0)
      then Some <$> index3 grid (x - 1) y z
      else Some None
  | RIGHT =>
      if bool_decide (Z.of_nat x ≠ (Z.of_nat (length grid) - 1)%Z)
      then Some <$> index3 grid (x + 1) y z
      else Some None
  | INTO =>
      gx ← grid !! x; gy ← gx !! y;
      if bool_decide (Z.of_nat z ≠ (Z.of_nat (length gy) - 1)%Z)
      then Some <$> index3 grid x y (z + 1)
      else Some None
  | OUT_OF =>
      if bool_decide (z ≠ 0)
      then Some <$> index3 grid x y (z - 1)
      else Some None
  end.

Definition reverse (self : Orientation) : Orientation :=
  match self with
  | DOWN => UP
  | UP => DOWN
  | LEFT => RIGHT
  | RIGHT => LEFT
  | INTO => OUT_OF
  | OUT_OF => INTO
  end.

(** ** Points and triangles *)

(** A vertex is the tuple [(x, y, z)]. *)
Definition point : Type := Q * Q * Q.

Definition coord0 (p : point) : Q := p.1.1.
Definition coord1 (p : point) : Q := p.1.2.
Definition coord2 (p : point) : Q := p.2.

(** A triangle is the list of its three vertices, in order. *)
Definition triangle : Type := point * point * point.

(** ** Rectangle *)

Record Rectangle := mkRectangle {
  ll : point;
  tl : point;
  lr : point;
  tr : point;
  orientation : Orientation
}.

(** The two corner orders of [Rectangle.faces]. *)
Definition counterclockwise (r : Rectangle) : list triangle :=
  [ (ll r, tr r, tl r); (ll r, lr r, tr r) ].

Definition clockwise (r : Rectangle) : list triangle :=
  [ (ll r, tl r, tr r); (ll r, tr r, lr r) ].

Definition faces (self : Rectangle) : list triangle :=
  if bool_decide (orientation self ∈ [UP; RIGHT; OUT_OF])
  then [ (ll self, tr self, tl self); (ll self, lr self, tr self) ]
  else [ (ll self, tl self, tr self); (ll self, tr self, lr self) ].

(** ** Prism *)

Record Prism := mkPrism {
  vx_000 : point;
  vx_001 : point;
  vx_010 : point;
  vx_011 : point;
  vx_100 : point;
  vx_101 : point;
  vx_110 : point;
  vx_111 : point
}.

(** The objects that reach a membership test in this program: members of the
    enum and prisms. *)
Inductive PyObj :=
  | ObjOrientation (o : Orientation)
  | ObjPrism (p : Prism).

Definition point_eqb (p q : point) : bool :=
  Qeq_bool (coord0 p) (coord0 q) && Qeq_bool (coord1 p) (coord1 q)
  && Qeq_bool (coord2 p) (coord2 q).

(** The [__eq__] the dataclass decorator generates: field by field. *)
Definition Prism_eqb (p q : Prism) : bool :=
  point_eqb (vx_000 p) (vx_000 q) && point_eqb (vx_001 p) (vx_001 q)
  && point_eqb (vx_010 p) (vx_010 q) && point_eqb (vx_011 p) (vx_011 q)
  && point_eqb (vx_100 p) (vx_100 q) && point_eqb (vx_101 p) (vx_101 q)
  && point_eqb (vx_110 p) (vx_110 q) && point_eqb (vx_111 p) (vx_111 q).

(** [a == b].  Enum members compare by identity; a dataclass answers
    [NotImplemented] to another class, so the comparison of an enum member
    with a prism falls back to identity and is [False]. *)
Definition py_eq (a b : PyObj) : bool :=
  match a, b with
  | ObjOrientation o1, ObjOrientation o2 => bool_decide (o1 = o2)
  | ObjPrism p1, ObjPrism p2 => Prism_eqb p1 p2
  | _, _ => false
  end.

(** [a in container], for a container that is iterated. *)
Definition py_in (a : PyObj) (container : list PyObj) : bool :=
  existsb (py_eq a) container.

Definition rectangles (self : Prism) : list Rectangle :=
  [ mkRectangle (vx_000 self) (vx_001 self) (vx_010 self) (vx_011 self) LEFT;
    mkRectangle (vx_100 self) (vx_101 self) (vx_110 self) (vx_111 self) RIGHT;
    mkRectangle (vx_001 self) (vx_011 self) (vx_101 self) (vx_111 self) UP;
    mkRectangle (vx_000 self) (vx_010 self) (vx_100 self) (vx_110 self) DOWN;
    mkRectangle (vx_010 self) (vx_011 self) (vx_110 self) (vx_111 self) INTO;
    mkRectangle (vx_000 self) (vx_001 self) (vx_100 self) (vx_101 self) OUT_OF ].

(** [Prism.triangle_slice].  The argument is [None], or any iterable of
    objects; [suppress_orientations or set()] replaces [None] and an empty
    container by the empty set. *)
Definition triangle_slice (self : Prism)
    (suppress_orientations : option (list PyObj)) : list triangle :=
  let suppress_orientations :=
    match suppress_orientations with
    | Some ((_ :: _) as s) => s
    | _ => []
    end in
  r ← filter (λ r, py_in (ObjOrientation (orientation r))
                         suppress_orientations = false) (rectangles self);
  faces r.

Definition volume (self : Prism) : Q :=
  ((coord0 (vx_100 self) - coord0 (vx_000 self)) *
   (coord1 (vx_010 self) - coord1 (vx_000 self)) *
   (coord2 (vx_001 self) - coord2 (vx_000 self)))%Q.

(** ** PrismGraphNode and PrismGraph *)

Record PrismGraphNode := mkNode {
  prism : option Prism;
  neighbour_map : gmap Orientation Prism
}.

(** The attribute [self.graph]. *)
Abbreviation PrismGraph := (list (list (list PrismGraphNode))).

(** [zip(grid, grid[1:])] *)
Definition breakpoints (grid : list Q) : list (Q * Q) := zip grid (drop 1 grid).

(** The [Prism(...)] call of the constructor, on the pairs [(x, x_next)],
    [(y, y_next)], [(z, z_next)]. *)
Definition make_prism (xs ys zs : Q * Q) : Prism :=
  mkPrism (xs.1, ys.1, zs.1) (xs.1, ys.1, zs.2)
          (xs.1, ys.2, zs.1) (xs.1, ys.2, zs.2)
          (xs.2, ys.1, zs.1) (xs.2, ys.1, zs.2)
          (xs.2, ys.2, zs.1) (xs.2, ys.2, zs.2).

Definition prism_grid (x_grid y_grid z_grid : list Q) : list (list (list Prism)) :=
  (λ xs, (λ ys, (λ zs, make_prism xs ys zs) <$> breakpoints z_grid)
           <$> breakpoints y_grid)
    <$> breakpoints x_grid.

(** One step of the dict comprehension
    [{o: o.get_neighbour(...) for o in Orientation if o.get_neighbour(...)}]:
    a prism is truthy, [None] is not; both calls return the same object. *)
Definition neighbour_entry (grid : list (list (list Prism))) (x y z : nat)
    (acc : option (gmap Orientation Prism)) (o : Orientation)
    : option (gmap Orientation Prism) :=
  d ← acc;
  n ← get_neighbour o grid x y z;
  match n with
  | Some p => Some (<[o := p]> d)
  | None => Some d
  end.

Definition neighbour_dict (grid : list (list (list Prism))) (x y z : nat)
    : option (gmap Orientation Prism) :=
  foldl (neighbour_entry grid x y z) (Some ∅) all_orientations.

(** [PrismGraph.__init__]; the result is [self.graph]. *)
Definition PrismGraph_init (x_grid y_grid z_grid : list Q) : option PrismGraph :=
  let prism_grid := prism_grid x_grid y_grid z_grid in
  mapM (λ x,
    gx ← prism_grid !! x;
    mapM (λ y,
      gy ← gx !! y;
      mapM (λ z,
        p ← index3 prism_grid x y z;
        d ← neighbour_dict prism_grid x y z;
        Some (mkNode (Some p) d))
        (seq 0 (length gy)))
      (seq 0 (length gx)))
    (seq 0 (length prism_grid)).

(** In-place update of the object stored at [grid[x][y][z]]. *)
Definition alter3 {A} (f : A → A) (x y z : nat)
    (grid : list (list (list A))) : list (list (list A)) :=
  alter (alter (alter f z) y) x grid.

(** [node.prism = None] *)
Definition clear_prism (node : PrismGraphNode) : PrismGraphNode :=
  mkNode None (neighbour_map node).

(** [node.neighbour_map.pop(key, None)] *)
Definition pop (key : Orientation) (node : PrismGraphNode) : PrismGraphNode :=
  mkNode (prism node) (delete key (neighbour_map node)).

(** Where the object returned by [get_neighbour] lives in the grid. *)
Definition neighbour_index (o : Orientation) (x y z : nat) : nat * nat * nat :=
  match o with
  | UP => (x, y + 1, z)
  | DOWN => (x, y - 1, z)
  | LEFT => (x - 1, y, z)
  | RIGHT => (x + 1, y, z)
  | INTO => (x, y, z + 1)
  | OUT_OF => (x, y, z - 1)
  end.

(** The body of the loop of [delete_prism]: a node object is truthy. *)
Definition unlink (x y z : nat) (acc : option PrismGraph) (o : Orientation)
    : option PrismGraph :=
  graph ← acc;
  neighbour_node ← get_neighbour o graph x y z;
  match neighbour_node with
  | Some _ =>
      let '(i, j, k) := neighbour_index o x y z in
      Some (alter3 (pop (reverse o)) i j k graph)
  | None => Some graph
  end.

(** [PrismGraph.delete_prism]: the returned number and the graph after. *)
Definition delete_prism (graph : PrismGraph) (x y z : nat)
    : option (Q * PrismGraph) :=
  node ← index3 graph x y z;
  match prism node return option (Q * PrismGraph) with
  | None => Some (0%Q, graph)
  | Some p =>
      let volume := volume p in
      let graph := alter3 clear_prism x y z graph in
      graph ← foldl (unlink x y z) (Some graph) all_orientations;
      Some (volume, graph)
  end.

(** The values view of the dict, as the iterable handed to
    [triangle_slice]. *)
Definition dict_values (d : gmap Orientation Prism) : list PyObj :=
  ObjPrism <$> (map_to_list d).*2.

(** The keys of the dict, as an iterable. *)
Definition dict_keys (d : gmap Orientation Prism) : list PyObj :=
  ObjOrientation <$> (map_to_list d).*1.

(** [PrismGraph.to_mesh]: the list [faces_vec], which is then copied
    triangle by triangle into the mesh object. *)
Definition to_mesh (graph : PrismGraph) : list triangle :=
  n_x ← graph; n_y ← n_x; node ← n_y;
  match prism node with
  | Some p => triangle_slice p (Some (dict_values (neighbour_map node)))
  | None => []
  end.

(** ** Vocabulary of the specification *)

(** A grid with [nx] x [ny] x [nz] cells. *)
Definition rect {A} (nx ny nz : nat) (grid : list (list (list A))) : Prop :=
  length grid = nx ∧
  Forall (λ gx, length gx = ny ∧ Forall (λ gy, length gy = nz) gx) grid.

Definition in_range (nx ny nz x y z : nat) : Prop := x < nx ∧ y < ny ∧ z < nz.

(** The cell next to [(x, y, z)] in direction [o], when the grid has one. *)
Definition neighbour_pos (nx ny nz : nat) (o : Orientation) (x y z : nat)
    : option (nat * nat * nat) :=
  match o with
  | UP => if decide (y + 1 < ny) then Some (x, y + 1, z) else None
  | DOWN => if decide (0 < y) then Some (x, y - 1, z) else None
  | LEFT => if decide (0 < x) then Some (x - 1, y, z) else None
  | RIGHT => if decide (x + 1 < nx) then Some (x + 1, y, z) else None
  | INTO => if decide (z + 1 < nz) then Some (x, y, z + 1) else None
  | OUT_OF => if decide (0 < z) then Some (x, y, z - 1) else None
  end.

Definition at_pos {A} (grid : list (list (list A))) (p : nat * nat * nat)
    : option A :=
  index3 grid p.1.1 p.1.2 p.2.

(** The prism of the cell at [p] is present. *)
Definition present (graph : PrismGraph) (p : nat * nat * nat) : Prop :=
  ∃ node, at_pos graph p = Some node ∧ is_Some (prism node).

Definition has_link (graph : PrismGraph) (p : nat * nat * nat)
    (o : Orientation) : Prop :=
  ∃ node, at_pos graph p = Some node ∧ is_Some (neighbour_map node !! o).

(** The states a graph built from the three sequences can reach. *)
Inductive reachable (x_grid y_grid z_grid : list Q) : PrismGraph → Prop :=
  | reachable_init graph :
      PrismGraph_init x_grid y_grid z_grid = Some graph →
      reachable x_grid y_grid z_grid graph
  | reachable_delete graph x y z freed graph' :
      reachable x_grid y_grid z_grid graph →
      delete_prism graph x y z = Some (freed, graph') →
      reachable x_grid y_grid z_grid graph'.

(** A sequence of [delete_prism] calls: the returned values, in order, and
    the final graph. *)
Fixpoint delete_all (graph : PrismGraph) (cells : list (nat * nat * nat))
    : option (list Q * PrismGraph) :=
  match cells with
  | [] => Some ([], graph)
  | (x, y, z) :: cells =>
      '(freed, graph) ← delete_prism graph x y z;
      '(rest, graph) ← delete_all graph cells;
      Some (freed :: rest, graph)
  end.

Definition Qsum (l : list Q) : Q := foldr Qplus 0%Q l.

Definition node_volume (node : PrismGraphNode) : Q :=
  match prism node with
  | Some p => volume p
  | None => 0%Q
  end.

(** Sum of the volumes of the prisms that are present. *)
Definition total_volume (graph : PrismGraph) : Q :=
  Qsum ((λ gx, Qsum ((λ gy, Qsum (node_volume <$> gy)) <$> gx)) <$> graph).

Definition count_present (graph : PrismGraph) : nat :=
  length (filter (λ node, is_Some (prism node)) (concat (concat graph))).

Fixpoint strictly_increasing (l : list Q) : Prop :=
  match l with
  | a :: ((b :: _) as l') => (a < b)%Q ∧ strictly_increasing l'
  | _ => True
  end.

Definition valid_grid (l : list Q) : Prop :=
  2 ≤ length l ∧ strictly_increasing l.

(** *** Geometry *)

Definition vsub (a b : point) : point :=
  ((coord0 a - coord0 b)%Q, (coord1 a - coord1 b)%Q, (coord2 a - coord2 b)%Q).

Definition cross (a b : point) : point :=
  ((coord1 a * coord2 b - coord2 a * coord1 b)%Q,
   (coord2 a * coord0 b - coord0 a * coord2 b)%Q,
   (coord0 a * coord1 b - coord1 a * coord0 b)%Q).

Definition dot (a b : point) : Q :=
  (coord0 a * coord0 b + coord1 a * coord1 b + coord2 a * coord2 b)%Q.

(** Normal of a triangle: cross product of its edges in vertex order. *)
Definition normal (t : triangle) : point :=
  cross (vsub t.1.2 t.1.1) (vsub t.2 t.1.2).

Definition corners (p : Prism) : list point :=
  [vx_000 p; vx_001 p; vx_010 p; vx_011 p;
   vx_100 p; vx_101 p; vx_110 p; vx_111 p].

Definition centroid (p : Prism) : point :=
  ((Qsum (coord0 <$> corners p) / 8)%Q,
   (Qsum (coord1 <$> corners p) / 8)%Q,
   (Qsum (coord2 <$> corners p) / 8)%Q).

(** The normal of [t] points away from [c]: it makes a positive product
    with the vector from [c] to each vertex. *)
Definition points_away (c : point) (t : triangle) : Prop :=
  (0 < dot (normal t) (vsub t.1.1 c))%Q ∧
  (0 < dot (normal t) (vsub t.1.2 c))%Q ∧
  (0 < dot (normal t) (vsub t.2 c))%Q.

(** An axis-aligned box with positive extent on each axis. *)
Definition valid_prism (p : Prism) : Prop :=
  ∃ xs ys zs : Q * Q,
    p = make_prism xs ys zs ∧ (xs.1 < xs.2)%Q ∧ (ys.1 < ys.2)%Q ∧ (zs.1 < zs.2)%Q.

(** *** The graph after a deletion, in closed form *)

(** The effect of one round of the loop of [delete_prism] on a grid of
    [nx] x [ny] x [nz] cells. *)
Definition sever (nx ny nz x y z : nat) (graph : PrismGraph)
    (o : Orientation) : PrismGraph :=
  match neighbour_pos nx ny nz o x y z with
  | Some (i, j, k) => alter3 (pop (reverse o)) i j k graph
  | None => graph
  end.

Definition deleted (nx ny nz x y z : nat) (graph : PrismGraph) : PrismGraph :=
  foldl (sever nx ny nz x y z) (alter3 clear_prism x y z graph)
        all_orientations.

(** *** The graph after construction, in closed form *)

Definition tabulate3 {A} (nx ny nz : nat) (f : nat → nat → nat → A)
    : list (list (list A)) :=
  (λ x, (λ y, (λ z, f x y z) <$> seq 0 nz) <$> seq 0 ny) <$> seq 0 nx.

(** The link map of the cell at [(x, y, z)] of a grid of prisms with
    [nx] x [ny] x [nz] cells. *)
Definition initial_links (nx ny nz : nat) (grid : list (list (list Prism)))
    (x y z : nat) : gmap Orientation Prism :=
  foldl (λ d o,
           match neighbour_pos nx ny nz o x y z ≫= at_pos grid with
           | Some p => <[o := p]> d
           | None => d
           end) ∅ all_orientations.

Definition initial_graph (x_grid y_grid z_grid : list Q) : PrismGraph :=
  let nx := length x_grid - 1 in
  let ny := length y_grid - 1 in
  let nz := length z_grid - 1 in
  let grid := prism_grid x_grid y_grid z_grid in
  tabulate3 nx ny nz
    (λ x y z, mkNode (index3 grid x y z) (initial_links nx ny nz grid x y z)).

(** The corner of a prism for a choice of low ([false]) or high ([true]) on
    each axis. *)
Definition corner (p : Prism) (a b c : bool) : point :=
  match a, b, c with
  | false, false, false => vx_000 p
  | false, false, true => vx_001 p
  | false, true, false => vx_010 p
  | false, true, true => vx_011 p
  | true, false, false => vx_100 p
  | true, false, true => vx_101 p
  | true, true, false => vx_110 p
  | true, true, true => vx_111 p
  end.

Definition bit (b : bool) : nat := if b then 1 else 0.

(** *** The invariant of the link maps *)

(** In a graph built from the three sequences: the graph has the shape of
    the grid; a prism that is present is the one built for its cell; and a
    cell has an entry for a direction exactly when the grid has a cell next
    to it in that direction whose prism is present, the entry being that
    prism. *)
Definition consistent (x_grid y_grid z_grid : list Q) (graph : PrismGraph)
    : Prop :=
  let nx := length x_grid - 1 in
  let ny := length y_grid - 1 in
  let nz := length z_grid - 1 in
  let grid := prism_grid x_grid y_grid z_grid in
  rect nx ny nz graph ∧
  ∀ x y z node, index3 graph x y z = Some node →
    (prism node = None ∨ prism node = index3 grid x y z) ∧
    ∀ o, neighbour_map node !! o =
           q ← neighbour_pos nx ny nz o x y z;
           n ← at_pos graph q; _ ← prism n; at_pos grid q.

(** *** Examples used below *)

(** The unit cube. *)
Definition unit_cube : Prism := make_prism (0, 1)%Q (0, 1)%Q (0, 1)%Q.

(** The face of the unit cube that [triangle_slice] labels [INTO]. *)
Definition unit_cube_into : Rectangle :=
  mkRectangle (vx_010 unit_cube) (vx_011 unit_cube)
              (vx_110 unit_cube) (vx_111 unit_cube) INTO.

(** Two unit cells side by side along x, as built; after the right one is
    deleted; after both are. *)
Definition two_cells : PrismGraph :=
  initial_graph [0; 1; 2]%Q [0; 1]%Q [0; 1]%Q.

Definition two_cells_right_deleted : PrismGraph :=
  deleted 2 1 1 1 0 0 two_cells.

Definition two_cells_both_deleted : PrismGraph :=
  deleted 2 1 1 0 0 0 two_cells_right_deleted.

(** *** The loop body of the script *)

(** One of the three loops of the script,
    [for i in range(n): current_volume -= g.delete_prism(...)], over the
    cells [cell 0], ..., [cell (n - 1)]. *)
Definition delete_line (cell : nat → nat * nat * nat) (n : nat)
    (state : Q * PrismGraph) : option (Q * PrismGraph) :=
  foldl (λ acc i,
           '(current_volume, graph) ← acc;
           '(freed, graph) ← delete_prism graph (cell i).1.1 (cell i).1.2
                                          (cell i).2;
           Some ((current_volume - freed)%Q, graph))
        (Some state) (seq 0 n).

(** The body of the [while] loop for the drawn numbers [a] and [b]: the
    three lines through [(a, a, b)] and [(a, b, b)], each [len(g.graph)]
    cells long. *)
Definition carve (current_volume : Q) (graph : PrismGraph) (a b : nat)
    : option (Q * PrismGraph) :=
  state ← delete_line (λ x, (x, a, b)) (length graph) (current_volume, graph);
  state ← delete_line (λ y, (a, y, b)) (length state.2) state;
  delete_line (λ z, (a, b, z)) (length state.2) state.

(** The cells the three loops visit, in order. *)
Definition carve_cells (n a b : nat) : list (nat * nat * nat) :=
  ((λ x, (x, a, b)) <$> seq 0 n) ++ ((λ y, (a, y, b)) <$> seq 0 n)
  ++ ((λ z, (a, b, z)) <$> seq 0 n).

(** *** More vocabulary *)

(** Last point minus first point of a sequence; 0 for the empty one. *)
Definition span (l : list Q) : Q :=
  (default 0 (last l) - default 0 (head l))%Q.

(** The prisms that are present, in the order of traversal of [to_mesh]. *)
Definition present_prisms (graph : PrismGraph) : list Prism :=
  omap prism (concat (concat graph)).

(** The faces of a prism whose direction is not in [os]. *)
Definition unsuppressed (os : list Orientation) (p : Prism) : list Rectangle :=
  filter (λ r, orientation r ∉ os) (rectangles p).

(** What the deletion of the cell at [(x, y, z)] does to the node at [r]:
    the prism goes if [r] is the deleted cell, and an entry keyed [o] goes if
    [r] is the cell next to the deleted one in direction [reverse o]. *)
Definition delete_effect (nx ny nz x y z : nat) (r : nat * nat * nat)
    (node : PrismGraphNode) : PrismGraphNode :=
  mkNode (if decide (r = (x, y, z)) then None else prism node)
         (filter (λ kv : Orientation * Prism,
                    neighbour_pos nx ny nz (reverse kv.1) x y z ≠ Some r)
                 (neighbour_map node)).

(** A single unit cell. *)
Definition one_cell : PrismGraph :=
  initial_graph [0; 1]%Q [0; 1]%Q [0; 1]%Q.

(** * Properties *)

(** ** Rectangle.faces and Prism.triangle_slice *)

Lemma faces_counterclockwise (r : Rectangle) :
  orientation r ∈ [UP; RIGHT; OUT_OF] → faces r = counterclockwise r.
Proof.
  intros Ho. unfold faces. by rewrite bool_decide_eq_true_2.
Qed.

Lemma faces_clockwise (r : Rectangle) :
  orientation r ∈ [DOWN; LEFT; INTO] → faces r = clockwise r.
Proof.
  intros Ho. unfold faces. rewrite bool_decide_eq_false_2; [done|].
  intros Hin. revert Ho. destruct (orientation r); revert Hin; compute_done.
Qed.

Lemma windings_differ (r : Rectangle) :
  tl r ≠ tr r → counterclockwise r ≠ clockwise r.
Proof.
  intros Hne Heq. unfold counterclockwise, clockwise in Heq.
  apply Hne. congruence.
Qed.

(** C2, as the specification words it, fails on the face labelled [INTO]:
    its two triangles are emitted in the mirrored order (low-low, top-left,
    top-right), (low-low, top-right, low-right), not in the order given for
    the directions up, right and into. *)
Lemma faces_into_counterexample :
  unit_cube_into ∈ rectangles unit_cube ∧
  orientation unit_cube_into ∈ [UP; RIGHT; INTO] ∧
  faces unit_cube_into ≠ counterclockwise unit_cube_into ∧
  faces unit_cube_into = clockwise unit_cube_into.
Proof.
  split; [|split; [|split]].
  - do 4 apply list_elem_of_further. apply list_elem_of_here.
  - compute_done.
  - rewrite faces_clockwise by compute_done.
    intros Heq. symmetry in Heq. revert Heq. apply windings_differ.
    vm_compute. discriminate.
  - apply faces_clockwise. compute_done.
Qed.

(** C2, amended: every face of a prism is emitted as the two triangles
    (low-low, top-right, top-left), (low-low, low-right, top-right) when its
    direction is up, right or out-of, and as the mirrored pair (low-low,
    top-left, top-right), (low-low, top-right, low-right) when its direction is
    down, left or into; on a face whose two top corners differ the two
    orders differ, so each order is used exactly for its three directions. *)
Theorem faces_winding (p : Prism) (r : Rectangle) :
  r ∈ rectangles p →
  (orientation r ∈ [UP; RIGHT; OUT_OF] → faces r = counterclockwise r) ∧
  (orientation r ∈ [DOWN; LEFT; INTO] → faces r = clockwise r) ∧
  (tl r ≠ tr r →
     (faces r = counterclockwise r ↔ orientation r ∈ [UP; RIGHT; OUT_OF]) ∧
     (faces r = clockwise r ↔ orientation r ∈ [DOWN; LEFT; INTO])).
Proof.
  intros _. split; [apply faces_counterclockwise|].
  split; [apply faces_clockwise|].
  intros Hne. pose proof (windings_differ r Hne) as Hdiff.
  split; (split; [|auto using faces_counterclockwise, faces_clockwise]).
  - intros Heq. destruct (orientation r) eqn:Ho; try compute_done;
      rewrite faces_clockwise in Heq by (rewrite Ho; compute_done); congruence.
  - intros Heq. destruct (orientation r) eqn:Ho; try compute_done;
      rewrite faces_counterclockwise in Heq by (rewrite Ho; compute_done);
      congruence.
Qed.

Lemma faces_winding_witness :
  (faces unit_cube_into = clockwise unit_cube_into ↔
   orientation unit_cube_into ∈ [DOWN; LEFT; INTO]).
Proof.
  refine (proj2 (proj2 (proj2 (faces_winding unit_cube unit_cube_into _)) _)).
  - do 4 apply list_elem_of_further. apply list_elem_of_here.
  - vm_compute. discriminate.
Defined.

Lemma box_volume_pos (x0 x1 y0 y1 z0 z1 : Q) :
  (x0 < x1)%Q → (y0 < y1)%Q → (z0 < z1)%Q →
  (0 < (x1 - x0) * (y1 - y0) * (z1 - z0))%Q.
Proof.
  intros Hx Hy Hz.
  apply Qmult_lt_0_compat; [apply Qmult_lt_0_compat|]; lra.
Qed.

Lemma triangle_slice_empty (p : Prism) (s : option (list PyObj)) :
  s = None ∨ s = Some [] → triangle_slice p s = rectangles p ≫= faces.
Proof. by intros [-> | ->]. Qed.

(** The twelve triangles of a box, in the order of emission. *)
Lemma box_triangles (x0 x1 y0 y1 z0 z1 : Q) :
  rectangles (make_prism (x0, x1) (y0, y1) (z0, z1)) ≫= faces =
    [ ((x0, y0, z0), (x0, y0, z1), (x0, y1, z1));
      ((x0, y0, z0), (x0, y1, z1), (x0, y1, z0));
      ((x1, y0, z0), (x1, y1, z1), (x1, y0, z1));
      ((x1, y0, z0), (x1, y1, z0), (x1, y1, z1));
      ((x0, y0, z1), (x1, y1, z1), (x0, y1, z1));
      ((x0, y0, z1), (x1, y0, z1), (x1, y1, z1));
      ((x0, y0, z0), (x0, y1, z0), (x1, y1, z0));
      ((x0, y0, z0), (x1, y1, z0), (x1, y0, z0));
      ((x0, y1, z0), (x0, y1, z1), (x1, y1, z1));
      ((x0, y1, z0), (x1, y1, z1), (x1, y1, z0));
      ((x0, y0, z0), (x1, y0, z1), (x0, y0, z1));
      ((x0, y0, z0), (x1, y0, z0), (x1, y0, z1)) ].
Proof. reflexivity. Qed.

Ltac unfold_geometry :=
  cbv [points_away centroid corners normal cross dot vsub coord0 coord1 coord2
       Qsum fmap list_fmap foldr fst snd make_prism
       vx_000 vx_001 vx_010 vx_011 vx_100 vx_101 vx_110 vx_111].

(** C3: a non-degenerate axis-aligned prism, sliced with nothing suppressed,
    yields twelve triangles, and the normal of each (cross product of its
    edges in vertex order) points away from the centroid of the prism: its
    product with the vector from the centroid to any vertex of the triangle
    is half the volume, which is positive. *)
Theorem triangle_slice_outward (p : Prism) (s : option (list PyObj)) :
  valid_prism p →
  s = None ∨ s = Some [] →
  length (triangle_slice p s) = 12 ∧
  Forall (points_away (centroid p)) (triangle_slice p s).
Proof.
  intros ([x0 x1] & [y0 y1] & [z0 z1] & -> & Hx & Hy & Hz) Hs.
  cbn [fst snd] in Hx, Hy, Hz.
  pose proof (box_volume_pos _ _ _ _ _ _ Hx Hy Hz) as HV.
  rewrite (triangle_slice_empty _ _ Hs), box_triangles.
  split; [done|].
  repeat (apply Forall_cons_2); try apply Forall_nil_2.
  all: unfold_geometry; repeat split.
  all: match goal with
       | |- (0 < ?e)%Q =>
           assert (e == (x1 - x0) * (y1 - y0) * (z1 - z0) * (1 # 2))%Q as ->
             by field
       end.
  all: apply Qmult_lt_0_compat; [exact HV | reflexivity].
Qed.

Lemma unit_cube_valid : valid_prism unit_cube.
Proof.
  exists (0, 1)%Q, (0, 1)%Q, (0, 1)%Q. by repeat split.
Defined.

Lemma triangle_slice_outward_witness :
  length (triangle_slice unit_cube None) = 12 ∧
  Forall (points_away (centroid unit_cube)) (triangle_slice unit_cube None).
Proof.
  apply (triangle_slice_outward unit_cube None).
  - exact unit_cube_valid.
  - by left.
Defined.

(** ** Membership of a direction in the values of a link map *)

Lemma py_in_prisms (o : Orientation) (ps : list Prism) :
  py_in (ObjOrientation o) (ObjPrism <$> ps) = false.
Proof. induction ps as [|p ps IH]; [done|]. exact IH. Qed.

Lemma triangle_slice_values (p : Prism) (d : gmap Orientation Prism) :
  triangle_slice p (Some (dict_values d)) = rectangles p ≫= faces.
Proof.
  unfold triangle_slice, dict_values.
  destruct (ObjPrism <$> (map_to_list d).*2) as [|a l] eqn:Hl; [done|].
  rewrite <- Hl. clear Hl.
  assert (∀ rs : list Rectangle,
    filter (λ r, py_in (ObjOrientation (orientation r))
                       (ObjPrism <$> (map_to_list d).*2) = false) rs = rs) as ->;
    [|done].
  induction rs as [|r rs IH]; [done|].
  rewrite filter_cons_True by apply py_in_prisms. by rewrite IH.
Qed.

Lemma length_faces (r : Rectangle) : length (faces r) = 2.
Proof. unfold faces. by case_bool_decide. Qed.

Lemma length_all_faces (p : Prism) : length (rectangles p ≫= faces) = 12.
Proof.
  unfold rectangles. rewrite !bind_cons, !length_app, !length_faces. done.
Qed.

Lemma to_mesh_row_length (n_y : list PrismGraphNode) :
  length (node ← n_y;
          match prism node with
          | Some p => triangle_slice p (Some (dict_values (neighbour_map node)))
          | None => []
          end)
  = 12 * length (filter (λ node, is_Some (prism node)) n_y).
Proof.
  induction n_y as [|node n_y IH]; [done|].
  rewrite bind_cons, length_app, IH, filter_cons.
  destruct (prism node) as [p|] eqn:Hp.
  - rewrite triangle_slice_values, length_all_faces.
    rewrite decide_True by eauto. simpl. lia.
  - rewrite decide_False by (by intros [? ?]). done.
Qed.

(** C10: whatever the link map of a node holds, its values are prisms, no
    direction is found among them, and the slice of a present prism has all
    twelve triangles; so the mesh has twelve triangles per present prism. *)
Theorem to_mesh_length (graph : PrismGraph) :
  (∀ (p : Prism) (d : gmap Orientation Prism),
     length (triangle_slice p (Some (dict_values d))) = 12) ∧
  length (to_mesh graph) = 12 * count_present graph.
Proof.
  split.
  { intros p d. by rewrite triangle_slice_values, length_all_faces. }
  unfold to_mesh, count_present.
  induction graph as [|n_x graph IH]; [done|].
  rewrite bind_cons, length_app, IH. simpl concat.
  rewrite concat_app, filter_app, length_app.
  enough (length (n_x ≫= λ n_y, n_y ≫= λ node,
            match prism node with
            | Some p => triangle_slice p (Some (dict_values (neighbour_map node)))
            | None => []
            end)
          = 12 * length (filter (λ node, is_Some (prism node)) (concat n_x)))
    by lia.
  clear IH. induction n_x as [|n_y n_x IH]; [done|].
  rewrite bind_cons, length_app, IH, to_mesh_row_length. simpl concat.
  rewrite filter_app, length_app. lia.
Qed.

(** ** delete_prism on an absent prism *)

(** C8: on a cell in range whose prism is absent, [delete_prism] returns 0
    and the graph as it was; so a second call does the same. *)
Theorem delete_absent (graph : PrismGraph) (x y z : nat) (node : PrismGraphNode) :
  index3 graph x y z = Some node →
  prism node = None →
  delete_prism graph x y z = Some (0%Q, graph) ∧
  (∀ freed graph', delete_prism graph x y z = Some (freed, graph') →
     delete_prism graph' x y z = Some (0%Q, graph')).
Proof.
  intros Hnode Hp.
  assert (delete_prism graph x y z = Some (0%Q, graph)) as Hdel.
  { unfold delete_prism. rewrite Hnode. simpl. by rewrite Hp. }
  split; [done|].
  intros freed graph' Hdel'. rewrite Hdel in Hdel'.
  by injection Hdel' as <- <-.
Qed.

(** ** Grids: subscripts, in-place updates, shape *)

Section grid.
Context {A : Type}.
Implicit Types (grid : list (list (list A))) (f : A → A).

Lemma index3_rect grid nx ny nz x y z :
  rect nx ny nz grid →
  is_Some (index3 grid x y z) ↔ in_range nx ny nz x y z.
Proof.
  intros [Hnx Hall]. unfold index3, in_range. split.
  - intros [a Ha].
    destruct (grid !! x) as [gx|] eqn:Hx; [|done]. simpl in Ha.
    destruct (gx !! y) as [gy|] eqn:Hy; [|done]. simpl in Ha.
    rewrite Forall_lookup in Hall. destruct (Hall _ _ Hx) as [Hny Hgx].
    rewrite Forall_lookup in Hgx. pose proof (Hgx _ _ Hy) as Hnz.
    apply lookup_lt_Some in Hx, Hy, Ha. lia.
  - intros (Hx & Hy & Hz).
    destruct (lookup_lt_is_Some_2 grid x) as [gx Hgx]; [lia|].
    rewrite Forall_lookup in Hall. destruct (Hall _ _ Hgx) as [Hny Hall'].
    destruct (lookup_lt_is_Some_2 gx y) as [gy Hgy]; [lia|].
    rewrite Forall_lookup in Hall'. pose proof (Hall' _ _ Hgy) as Hnz.
    destruct (lookup_lt_is_Some_2 gy z) as [a Ha]; [lia|].
    rewrite Hgx. simpl. rewrite Hgy. simpl. eauto.
Qed.

Lemma rect_lookup grid nx ny nz x gx :
  rect nx ny nz grid → grid !! x = Some gx →
  length gx = ny ∧ Forall (λ gy, length gy = nz) gx.
Proof.
  intros [_ Hall] Hx. rewrite Forall_lookup in Hall. eauto.
Qed.

Lemma rect_lookup2 grid nx ny nz x y gx gy :
  rect nx ny nz grid → grid !! x = Some gx → gx !! y = Some gy →
  length gy = nz.
Proof.
  intros Hrect Hx Hy. destruct (rect_lookup _ _ _ _ _ _ Hrect Hx) as [_ Hall].
  rewrite Forall_lookup in Hall. eauto.
Qed.

Lemma rect_alter3 grid nx ny nz f x y z :
  rect nx ny nz grid → rect nx ny nz (alter3 f x y z grid).
Proof.
  intros [Hnx Hall]. unfold alter3. split; [by rewrite length_alter|].
  rewrite Forall_lookup. intros i gx Hi.
  rewrite Forall_lookup in Hall.
  destruct (decide (x = i)) as [->|Hne].
  - rewrite list_lookup_alter_eq in Hi.
    destruct (grid !! i) as [gx0|] eqn:Hgx0; [|done].
    injection Hi as <-. destruct (Hall _ _ Hgx0) as [Hny Hall'].
    split; [by rewrite length_alter|].
    rewrite Forall_lookup. intros j gy Hj.
    rewrite Forall_lookup in Hall'.
    destruct (decide (y = j)) as [->|Hne'].
    + rewrite list_lookup_alter_eq in Hj.
      destruct (gx0 !! j) as [gy0|] eqn:Hgy0; [|done].
      injection Hj as <-. rewrite length_alter. eauto.
    + rewrite list_lookup_alter_ne in Hj by done. eauto.
  - rewrite list_lookup_alter_ne in Hi by done. eauto.
Qed.

Lemma index3_alter3_eq grid f x y z :
  index3 (alter3 f x y z grid) x y z = f <$> index3 grid x y z.
Proof.
  unfold index3, alter3. rewrite list_lookup_alter_eq.
  destruct (grid !! x) as [gx|]; [|done]. simpl.
  rewrite list_lookup_alter_eq.
  destruct (gx !! y) as [gy|]; [|done]. simpl.
  by rewrite list_lookup_alter_eq.
Qed.

Lemma index3_alter3_ne grid f x y z x' y' z' :
  (x, y, z) ≠ (x', y', z') →
  index3 (alter3 f x y z grid) x' y' z' = index3 grid x' y' z'.
Proof.
  intros Hne. unfold index3, alter3.
  destruct (decide (x = x')) as [->|Hx];
    [|by rewrite list_lookup_alter_ne].
  rewrite list_lookup_alter_eq.
  destruct (grid !! x') as [gx|]; [|done]. simpl.
  destruct (decide (y = y')) as [->|Hy];
    [|by rewrite list_lookup_alter_ne].
  rewrite list_lookup_alter_eq.
  destruct (gx !! y') as [gy|]; [|done]. simpl.
  rewrite list_lookup_alter_ne; [done|]. congruence.
Qed.

Lemma at_pos_alter3 grid f x y z (q : nat * nat * nat) :
  at_pos (alter3 f x y z grid) q =
    if decide ((x, y, z) = q) then f <$> at_pos grid q else at_pos grid q.
Proof.
  destruct q as [[x' y'] z']. unfold at_pos. simpl. case_decide as Heq.
  - injection Heq as -> -> ->. apply index3_alter3_eq.
  - by apply index3_alter3_ne.
Qed.

(** On a grid of cells, [get_neighbour] returns the cell at the
    neighbouring position, and Python's [None] where the grid ends. *)
Lemma get_neighbour_rect grid nx ny nz o x y z :
  rect nx ny nz grid → in_range nx ny nz x y z →
  get_neighbour o grid x y z
    = Some (neighbour_pos nx ny nz o x y z ≫= at_pos grid).
Proof.
  intros Hrect (Hx & Hy & Hz).
  assert (∀ x' y' z', in_range nx ny nz x' y' z' →
            Some <$> index3 grid x' y' z' = Some (index3 grid x' y' z')) as Hin.
  { intros x' y' z' Hr. apply (index3_rect grid) in Hr; [|done].
    by destruct Hr as [a ->]. }
  destruct (lookup_lt_is_Some_2 grid x) as [gx Hgx];
    [destruct Hrect; lia|].
  destruct (rect_lookup _ _ _ _ _ _ Hrect Hgx) as [Hny _].
  destruct (lookup_lt_is_Some_2 gx y) as [gy Hgy]; [lia|].
  pose proof (rect_lookup2 _ _ _ _ _ _ _ _ Hrect Hgx Hgy) as Hnz.
  destruct Hrect as [Hnx Hall].
  unfold get_neighbour, neighbour_pos, at_pos.
  destruct o; rewrite ?Hgx; simpl; rewrite ?Hgy; simpl;
    case_bool_decide; case_decide; try lia; simpl; try done;
    rewrite Hin; try done; unfold in_range; lia.
Qed.

Lemma neighbour_pos_in_range nx ny nz o x y z q :
  in_range nx ny nz x y z →
  neighbour_pos nx ny nz o x y z = Some q →
  q = neighbour_index o x y z ∧ in_range nx ny nz q.1.1 q.1.2 q.2.
Proof.
  intros (Hx & Hy & Hz). unfold neighbour_pos, neighbour_index, in_range.
  destruct o; case_decide; intros [= <-]; simpl; (split; [done|lia]).
Qed.
End grid.

Lemma neighbour_pos_reverse nx ny nz o x y z x' y' z' :
  in_range nx ny nz x y z →
  in_range nx ny nz x' y' z' →
  neighbour_pos nx ny nz o x y z = Some (x', y', z') ↔
  neighbour_pos nx ny nz (reverse o) x' y' z' = Some (x, y, z).
Proof.
  intros (Hx & Hy & Hz) (Hx' & Hy' & Hz'). unfold neighbour_pos.
  destruct o; simpl; repeat case_decide; split; intros [= ]; try lia;
    f_equal; repeat f_equal; lia.
Qed.

Lemma neighbour_pos_ne nx ny nz o x y z :
  neighbour_pos nx ny nz o x y z ≠ Some (x, y, z).
Proof.
  unfold neighbour_pos. destruct o; case_decide; intros [= ]; lia.
Qed.

Lemma neighbour_pos_inj nx ny nz o o' x y z q :
  neighbour_pos nx ny nz o x y z = Some q →
  neighbour_pos nx ny nz o' x y z = Some q →
  o = o'.
Proof.
  unfold neighbour_pos.
  destruct o, o'; repeat case_decide; try done;
    intros [= <-] [= ]; lia.
Qed.

Lemma reverse_involutive o : reverse (reverse o) = o.
Proof. by destruct o. Qed.

(** ** delete_prism on a present prism *)

Section delete.
Context (nx ny nz : nat).
Implicit Types (graph : PrismGraph) (o : Orientation).

Lemma sever_rect graph x y z o :
  rect nx ny nz graph → rect nx ny nz (sever nx ny nz x y z graph o).
Proof.
  intros Hrect. unfold sever.
  destruct (neighbour_pos nx ny nz o x y z) as [[[i j] k]|]; [|done].
  by apply rect_alter3.
Qed.

Lemma unlink_sever graph x y z o :
  rect nx ny nz graph → in_range nx ny nz x y z →
  unlink x y z (Some graph) o = Some (sever nx ny nz x y z graph o).
Proof.
  intros Hrect Hin. unfold unlink, sever. simpl.
  rewrite (get_neighbour_rect graph nx ny nz) by done. simpl.
  destruct (neighbour_pos nx ny nz o x y z) as [q|] eqn:Hq; [|done].
  destruct (neighbour_pos_in_range _ _ _ _ _ _ _ _ Hin Hq) as [Hidx Hq'].
  apply (index3_rect graph) in Hq'; [|done]. destruct Hq' as [node Hnode].
  simpl. unfold at_pos. rewrite Hnode, <- Hidx. by destruct q as [[i j] k].
Qed.

Lemma foldl_unlink graph x y z (os : list Orientation) :
  rect nx ny nz graph → in_range nx ny nz x y z →
  foldl (unlink x y z) (Some graph) os
    = Some (foldl (sever nx ny nz x y z) graph os)
  ∧ rect nx ny nz (foldl (sever nx ny nz x y z) graph os).
Proof.
  intros Hrect Hin. revert graph Hrect.
  induction os as [|o os IH]; intros graph Hrect; [done|].
  cbn [foldl]. rewrite unlink_sever by done.
  apply IH. by apply sever_rect.
Qed.

Lemma deleted_rect graph x y z :
  rect nx ny nz graph → rect nx ny nz (deleted nx ny nz x y z graph).
Proof.
  intros Hrect. unfold deleted.
  generalize (rect_alter3 graph nx ny nz clear_prism x y z Hrect).
  generalize (alter3 clear_prism x y z graph). generalize all_orientations.
  intros os. induction os as [|o os IH]; intros g Hg; [done|].
  simpl. apply IH. by apply sever_rect.
Qed.

(** The call on a present prism, in closed form. *)
Lemma delete_prism_present graph x y z node p :
  rect nx ny nz graph →
  index3 graph x y z = Some node →
  prism node = Some p →
  delete_prism graph x y z
    = Some (volume p, deleted nx ny nz x y z graph).
Proof.
  intros Hrect Hnode Hp.
  assert (in_range nx ny nz x y z) as Hin.
  { apply (index3_rect graph); [done|]. by rewrite Hnode. }
  unfold delete_prism. rewrite Hnode. cbn [mbind option_bind]. rewrite Hp.
  cbv zeta.
  destruct (foldl_unlink (alter3 clear_prism x y z graph) x y z
              all_orientations) as [-> _]; [by apply rect_alter3|done|].
  done.
Qed.

Lemma at_pos_sever graph x y z o (r : nat * nat * nat) :
  at_pos (sever nx ny nz x y z graph o) r =
    if decide (neighbour_pos nx ny nz o x y z = Some r)
    then pop (reverse o) <$> at_pos graph r
    else at_pos graph r.
Proof.
  unfold sever.
  destruct (neighbour_pos nx ny nz o x y z) as [[[i j] k]|] eqn:Hq.
  - rewrite at_pos_alter3.
    destruct (decide ((i, j, k) = r)) as [->|Hne].
    + by rewrite decide_True.
    + rewrite decide_False; [done|]. congruence.
  - by rewrite decide_False.
Qed.

Ltac decide_neighbours :=
  unfold deleted, all_orientations; simpl foldl;
  rewrite !at_pos_sever, at_pos_alter3;
  repeat match goal with
    | |- context [decide ?P] => destruct (decide P)
    end;
  try done;
  repeat match goal with
    | H : (_, _, _) = ?q |- _ => is_var q; subst q
    | H : ?q = (_, _, _) |- _ => is_var q; subst q
    | H : neighbour_pos _ _ _ _ ?x ?y ?z = Some (?x, ?y, ?z) |- _ =>
        by destruct (neighbour_pos_ne _ _ _ _ _ _ _ H)
    | H : (_, _, _) = _ |- _ => injection H as <- <- <-
    | H1 : neighbour_pos _ _ _ ?o ?x ?y ?z = Some ?q,
      H2 : neighbour_pos _ _ _ ?o' ?x ?y ?z = Some ?q |- _ =>
        by pose proof (neighbour_pos_inj _ _ _ _ _ _ _ _ _ H1 H2)
    end.

(** The deleted cell loses its prism and keeps its link map. *)
Lemma at_pos_deleted_self graph x y z :
  at_pos (deleted nx ny nz x y z graph) (x, y, z)
    = clear_prism <$> at_pos graph (x, y, z).
Proof. decide_neighbours. Qed.

(** The neighbour in direction [o] loses its entry for [reverse o]. *)
Lemma at_pos_deleted_neighbour graph x y z o q :
  neighbour_pos nx ny nz o x y z = Some q →
  at_pos (deleted nx ny nz x y z graph) q
    = pop (reverse o) <$> at_pos graph q.
Proof.
  intros Hq. destruct o; decide_neighbours.
Qed.

(** Every other cell is as it was. *)
Lemma at_pos_deleted_other graph x y z r :
  r ≠ (x, y, z) →
  (∀ o, neighbour_pos nx ny nz o x y z ≠ Some r) →
  at_pos (deleted nx ny nz x y z graph) r = at_pos graph r.
Proof.
  intros Hr Hno.
  pose proof (Hno DOWN). pose proof (Hno UP). pose proof (Hno LEFT).
  pose proof (Hno RIGHT). pose proof (Hno INTO). pose proof (Hno OUT_OF).
  decide_neighbours.
Qed.
End delete.

(** ** The constructor *)

Lemma length_breakpoints (l : list Q) : length (breakpoints l) = length l - 1.
Proof. unfold breakpoints. rewrite length_zip, length_drop. lia. Qed.

Lemma lookup_breakpoints (l : list Q) (i : nat) (a b : Q) :
  breakpoints l !! i = Some (a, b) ↔ l !! i = Some a ∧ l !! (i + 1) = Some b.
Proof.
  unfold breakpoints. rewrite lookup_zip_Some, lookup_drop.
  by replace (1 + i) with (i + 1) by lia.
Qed.

Lemma index3_prism_grid (xg yg zg : list Q) (x y z : nat) :
  index3 (prism_grid xg yg zg) x y z =
    xs ← breakpoints xg !! x; ys ← breakpoints yg !! y;
    zs ← breakpoints zg !! z; Some (make_prism xs ys zs).
Proof.
  unfold index3, prism_grid. rewrite list_lookup_fmap.
  destruct (breakpoints xg !! x) as [xs|]; [|done]. simpl.
  rewrite list_lookup_fmap.
  destruct (breakpoints yg !! y) as [ys|]; [|done]. simpl.
  rewrite list_lookup_fmap.
  by destruct (breakpoints zg !! z) as [zs|].
Qed.

Lemma rect_prism_grid (xg yg zg : list Q) :
  rect (length xg - 1) (length yg - 1) (length zg - 1) (prism_grid xg yg zg).
Proof.
  unfold rect, prism_grid.
  split; [by rewrite length_fmap, length_breakpoints|].
  apply Forall_fmap, Forall_true. intros xs. simpl.
  split; [by rewrite length_fmap, length_breakpoints|].
  apply Forall_fmap, Forall_true. intros ys. simpl.
  by rewrite length_fmap, length_breakpoints.
Qed.

Lemma mapM_seq_Some {B} (f : nat → option B) (h : nat → B) (n : nat) :
  (∀ i, i < n → f i = Some (h i)) →
  mapM f (seq 0 n) = Some (h <$> seq 0 n).
Proof.
  intros Hf. apply mapM_Some_2, Forall2_fmap_r, Forall_Forall2_diag.
  apply Forall_seq. intros i Hi. simpl. apply Hf. lia.
Qed.

Section tabulate.
Context {A : Type} (nx ny nz : nat) (f : nat → nat → nat → A).

Lemma rect_tabulate3 : rect nx ny nz (tabulate3 nx ny nz f).
Proof.
  unfold rect, tabulate3.
  split; [by rewrite length_fmap, length_seq|].
  apply Forall_fmap, Forall_true. intros x. simpl.
  split; [by rewrite length_fmap, length_seq|].
  apply Forall_fmap, Forall_true. intros y. simpl.
  by rewrite length_fmap, length_seq.
Qed.

Lemma index3_tabulate3 x y z :
  in_range nx ny nz x y z →
  index3 (tabulate3 nx ny nz f) x y z = Some (f x y z).
Proof.
  intros (Hx & Hy & Hz). unfold index3, tabulate3.
  rewrite list_lookup_fmap, lookup_seq_lt by done. simpl.
  rewrite list_lookup_fmap, lookup_seq_lt by done. simpl.
  by rewrite list_lookup_fmap, lookup_seq_lt.
Qed.
End tabulate.

Lemma lookup_initial_links nx ny nz (grid : list (list (list Prism))) x y z o :
  initial_links nx ny nz grid x y z !! o
    = neighbour_pos nx ny nz o x y z ≫= at_pos grid.
Proof.
  unfold initial_links, all_orientations. cbn [foldl].
  destruct (neighbour_pos nx ny nz DOWN x y z ≫= at_pos grid) eqn:H1,
           (neighbour_pos nx ny nz UP x y z ≫= at_pos grid) eqn:H2,
           (neighbour_pos nx ny nz LEFT x y z ≫= at_pos grid) eqn:H3,
           (neighbour_pos nx ny nz RIGHT x y z ≫= at_pos grid) eqn:H4,
           (neighbour_pos nx ny nz INTO x y z ≫= at_pos grid) eqn:H5,
           (neighbour_pos nx ny nz OUT_OF x y z ≫= at_pos grid) eqn:H6;
    destruct o; by simplify_map_eq.
Qed.

Lemma neighbour_dict_rect nx ny nz (grid : list (list (list Prism))) x y z :
  rect nx ny nz grid → in_range nx ny nz x y z →
  neighbour_dict grid x y z = Some (initial_links nx ny nz grid x y z).
Proof.
  intros Hrect Hin.
  unfold neighbour_dict, initial_links.
  generalize (∅ : gmap Orientation Prism). generalize all_orientations.
  intros os. induction os as [|o os IH]; intros d; [done|].
  cbn [foldl]. rewrite <- IH. f_equal.
  unfold neighbour_entry. cbn [mbind option_bind].
  rewrite (get_neighbour_rect grid nx ny nz) by done. cbn [mbind option_bind].
  by destruct (neighbour_pos nx ny nz o x y z ≫= at_pos grid).
Qed.

(** The constructor never raises, and builds [initial_graph]. *)
Lemma PrismGraph_init_closed (xg yg zg : list Q) :
  PrismGraph_init xg yg zg = Some (initial_graph xg yg zg).
Proof.
  unfold PrismGraph_init, initial_graph. cbv zeta.
  pose proof (rect_prism_grid xg yg zg) as Hrect.
  set (grid := prism_grid xg yg zg) in *.
  set (nx := length xg - 1) in *. set (ny := length yg - 1) in *.
  set (nz := length zg - 1) in *.
  unfold tabulate3.
  replace (length grid) with nx by (by destruct Hrect).
  apply mapM_seq_Some. intros x Hx.
  destruct (lookup_lt_is_Some_2 grid x) as [gx Hgx]; [by destruct Hrect; lia|].
  rewrite Hgx. cbn [mbind option_bind].
  destruct (rect_lookup _ _ _ _ _ _ Hrect Hgx) as [-> _].
  apply mapM_seq_Some. intros y Hy.
  destruct (lookup_lt_is_Some_2 gx y) as [gy Hgy];
    [by rewrite (proj1 (rect_lookup _ _ _ _ _ _ Hrect Hgx))|].
  rewrite Hgy. cbn [mbind option_bind].
  rewrite (rect_lookup2 _ _ _ _ _ _ _ _ Hrect Hgx Hgy).
  apply mapM_seq_Some. intros z Hz.
  assert (in_range nx ny nz x y z) as Hin by done.
  destruct (proj2 (index3_rect grid _ _ _ _ _ _ Hrect) Hin) as [p Hp].
  rewrite Hp. cbn [mbind option_bind].
  by rewrite (neighbour_dict_rect nx ny nz).
Qed.

(** C4, as the specification words it, fails: the constructor checks
    nothing.  A sequence of one point gives a graph without cells, and a
    sequence that repeats a point gives a graph whose cell is flat; neither
    call raises. *)
Lemma PrismGraph_init_degenerate_counterexample :
  ¬ valid_grid [0%Q] ∧
  PrismGraph_init [0%Q] [0%Q; 1%Q] [0%Q; 1%Q] = Some [] ∧
  ¬ valid_grid [1%Q; 1%Q] ∧
  is_Some (PrismGraph_init [1%Q; 1%Q] [0%Q; 1%Q] [0%Q; 1%Q]).
Proof.
  split; [|split; [|split]].
  - intros [Hlen _]. simpl in Hlen. lia.
  - reflexivity.
  - intros [_ [Hlt _]]. by apply Qlt_irrefl in Hlt.
  - rewrite PrismGraph_init_closed. eauto.
Qed.

Lemma corner_make_prism (xs ys zs : Q * Q) (a b c : bool) :
  corner (make_prism xs ys zs) a b c
    = (if a then xs.2 else xs.1, if b then ys.2 else ys.1,
       if c then zs.2 else zs.1).
Proof. by destruct a, b, c. Qed.

Lemma lookup_breakpoints_bit (l : list Q) (i : nat) (xs : Q * Q) (a : bool) :
  breakpoints l !! i = Some xs →
  l !! (i + bit a) = Some (if a then xs.2 else xs.1).
Proof.
  destruct xs as [lo hi]. intros [Hlo Hhi]%lookup_breakpoints.
  destruct a; simpl; [done|]. by rewrite Nat.add_0_r.
Qed.

(** The cell of [initial_graph] at a position in range. *)
Lemma index3_initial_graph (xg yg zg : list Q) (x y z : nat) :
  in_range (length xg - 1) (length yg - 1) (length zg - 1) x y z →
  ∃ xs ys zs,
    breakpoints xg !! x = Some xs ∧ breakpoints yg !! y = Some ys ∧
    breakpoints zg !! z = Some zs ∧
    index3 (prism_grid xg yg zg) x y z = Some (make_prism xs ys zs) ∧
    index3 (initial_graph xg yg zg) x y z
      = Some (mkNode (Some (make_prism xs ys zs))
                (initial_links (length xg - 1) (length yg - 1)
                   (length zg - 1) (prism_grid xg yg zg) x y z)).
Proof.
  intros Hin. pose proof Hin as (Hx & Hy & Hz).
  destruct (lookup_lt_is_Some_2 (breakpoints xg) x) as [xs Hxs];
    [by rewrite length_breakpoints|].
  destruct (lookup_lt_is_Some_2 (breakpoints yg) y) as [ys Hys];
    [by rewrite length_breakpoints|].
  destruct (lookup_lt_is_Some_2 (breakpoints zg) z) as [zs Hzs];
    [by rewrite length_breakpoints|].
  exists xs, ys, zs.
  assert (index3 (prism_grid xg yg zg) x y z = Some (make_prism xs ys zs))
    as Hp by (by rewrite index3_prism_grid, Hxs, Hys, Hzs).
  repeat (split; [done|]).
  unfold initial_graph. cbv zeta. rewrite index3_tabulate3 by done.
  by rewrite Hp.
Qed.

Lemma valid_make_prism (xs ys zs : Q * Q) :
  valid_prism (make_prism xs ys zs)
  ↔ (xs.1 < xs.2)%Q ∧ (ys.1 < ys.2)%Q ∧ (zs.1 < zs.2)%Q.
Proof.
  split; [|by exists xs, ys, zs].
  intros (xs' & ys' & zs' & Heq & Hx & Hy & Hz).
  destruct xs as [x0 x1], ys as [y0 y1], zs as [z0 z1].
  destruct xs' as [x0' x1'], ys' as [y0' y1'], zs' as [z0' z1'].
  unfold make_prism in Heq. cbn [fst snd] in *.
  injection Heq as -> -> -> _ _ _ _ _ _ _ _ _ _ _ _ _ _ _ _ _ _ -> -> ->.
  done.
Qed.

(** C4, amended: the constructor raises no error on any input.  For every
    three sequences, strictly increasing with two points or more or not, it
    returns a graph, with one cell per pair of adjacent points on each axis
    (none on an axis with fewer than two points).  Every cell holds a prism,
    built from the points at the indices of the cell and the next ones as
    they are: a box with positive extent on each axis exactly when each of
    the three pairs of points increases, a flat or inverted one
    otherwise. *)
Theorem PrismGraph_init_total (x_grid y_grid z_grid : list Q) :
  ∃ graph,
    PrismGraph_init x_grid y_grid z_grid = Some graph ∧
    rect (length x_grid - 1) (length y_grid - 1) (length z_grid - 1) graph ∧
    ∀ x y z,
      in_range (length x_grid - 1) (length y_grid - 1) (length z_grid - 1)
        x y z →
      ∃ node xs ys zs,
        index3 graph x y z = Some node ∧
        x_grid !! x = Some xs.1 ∧ x_grid !! (x + 1) = Some xs.2 ∧
        y_grid !! y = Some ys.1 ∧ y_grid !! (y + 1) = Some ys.2 ∧
        z_grid !! z = Some zs.1 ∧ z_grid !! (z + 1) = Some zs.2 ∧
        prism node = Some (make_prism xs ys zs) ∧
        (∀ a b c : bool,
           corner (make_prism xs ys zs) a b c
             = (if a then xs.2 else xs.1, if b then ys.2 else ys.1,
                if c then zs.2 else zs.1)) ∧
        (valid_prism (make_prism xs ys zs)
         ↔ (xs.1 < xs.2)%Q ∧ (ys.1 < ys.2)%Q ∧ (zs.1 < zs.2)%Q).
Proof.
  exists (initial_graph x_grid y_grid z_grid).
  split; [apply PrismGraph_init_closed|].
  split; [apply rect_tabulate3|].
  intros x y z Hin.
  destruct (index3_initial_graph x_grid y_grid z_grid x y z Hin)
    as (xs & ys & zs & Hxs & Hys & Hzs & _ & Hnode).
  eexists _, xs, ys, zs. split; [exact Hnode|].
  destruct xs as [x0 x1], ys as [y0 y1], zs as [z0 z1].
  apply lookup_breakpoints in Hxs as [Hx0 Hx1].
  apply lookup_breakpoints in Hys as [Hy0 Hy1].
  apply lookup_breakpoints in Hzs as [Hz0 Hz1].
  repeat (split; [done|]).
  split; [apply corner_make_prism|apply valid_make_prism].
Qed.

Lemma initial_link_is_Some (xg yg zg : list Q) (x y z : nat) (o : Orientation) :
  let nx := length xg - 1 in
  let ny := length yg - 1 in
  let nz := length zg - 1 in
  in_range nx ny nz x y z →
  is_Some (initial_links nx ny nz (prism_grid xg yg zg) x y z !! o)
  ↔ is_Some (neighbour_pos nx ny nz o x y z).
Proof.
  intros nx ny nz Hin. rewrite lookup_initial_links.
  destruct (neighbour_pos nx ny nz o x y z) as [q|] eqn:Hq; simpl;
    [|by split; intros [? ?]].
  destruct (neighbour_pos_in_range _ _ _ _ _ _ _ _ Hin Hq) as [_ Hq'].
  apply (index3_rect (prism_grid xg yg zg)) in Hq';
    [|apply rect_prism_grid].
  split; [eauto|]. intros _. exact Hq'.
Qed.

(** C9: from three strictly increasing sequences of two points or more the
    constructor builds a grid of (Nx-1) x (Ny-1) x (Nz-1) cells; the prism of
    the cell at (x, y, z) is present and its corner for the choice (a, b, c)
    is (x_grid[x+a], y_grid[y+b], z_grid[z+c]); and the link map of the cell
    has an entry for a direction exactly when the grid has a cell next to it
    in that direction, the entry being the prism of that cell. *)
Theorem PrismGraph_init_spec (x_grid y_grid z_grid : list Q) :
  let nx := length x_grid - 1 in
  let ny := length y_grid - 1 in
  let nz := length z_grid - 1 in
  valid_grid x_grid → valid_grid y_grid → valid_grid z_grid →
  ∃ graph,
    PrismGraph_init x_grid y_grid z_grid = Some graph ∧
    rect nx ny nz graph ∧
    ∀ x y z, in_range nx ny nz x y z →
      ∃ node p,
        index3 graph x y z = Some node ∧
        prism node = Some p ∧
        (∀ a b c : bool,
           x_grid !! (x + bit a) = Some (coord0 (corner p a b c)) ∧
           y_grid !! (y + bit b) = Some (coord1 (corner p a b c)) ∧
           z_grid !! (z + bit c) = Some (coord2 (corner p a b c))) ∧
        (∀ o, is_Some (neighbour_map node !! o)
              ↔ is_Some (neighbour_pos nx ny nz o x y z)) ∧
        (∀ o q, neighbour_pos nx ny nz o x y z = Some q →
              neighbour_map node !! o = at_pos graph q ≫= prism).
Proof.
  intros nx ny nz _ _ _. subst nx ny nz.
  exists (initial_graph x_grid y_grid z_grid).
  split; [apply PrismGraph_init_closed|].
  split; [apply rect_tabulate3|].
  intros x y z Hin.
  destruct (index3_initial_graph x_grid y_grid z_grid x y z Hin)
    as (xs & ys & zs & Hxs & Hys & Hzs & Hp & Hnode).
  eexists _, _. split; [exact Hnode|]. split; [done|].
  split; [|split].
  - intros a b c. rewrite corner_make_prism. unfold coord0, coord1, coord2.
    cbn [fst snd]. by repeat split; apply lookup_breakpoints_bit.
  - intros o. by apply initial_link_is_Some.
  - intros o [[x' y'] z'] Hq. cbn [neighbour_map].
    rewrite lookup_initial_links, Hq. cbn [mbind option_bind].
    destruct (neighbour_pos_in_range _ _ _ _ _ _ _ _ Hin Hq) as [_ Hq'].
    destruct (index3_initial_graph x_grid y_grid z_grid x' y' z' Hq')
      as (xs' & ys' & zs' & _ & _ & _ & Hp' & Hnode').
    unfold at_pos. cbn [fst snd]. by rewrite Hp', Hnode'.
Qed.

(** ** Volume *)

Lemma fmap_alter_same {A B} (w : A → B) (f : A → A) (i : nat) (l : list A) :
  (∀ a, w (f a) = w a) → w <$> alter f i l = w <$> l.
Proof.
  intros Hw. apply list_eq. intros j. rewrite !list_lookup_fmap.
  destruct (decide (i = j)) as [->|Hne].
  - rewrite list_lookup_alter_eq. destruct (l !! j); simpl; [|done].
    by rewrite Hw.
  - by rewrite list_lookup_alter_ne.
Qed.

Lemma Qsum_cons (a : Q) (l : list Q) : Qsum (a :: l) = (a + Qsum l)%Q.
Proof. reflexivity. Qed.

Lemma Qsum_fmap_alter {A} (w : A → Q) (f : A → A) (i : nat) (l : list A)
    (a : A) (d : Q) :
  l !! i = Some a →
  (w (f a) == w a + d)%Q →
  (Qsum (w <$> alter f i l) == Qsum (w <$> l) + d)%Q.
Proof.
  intros Hi Hw. revert i Hi.
  induction l as [|b l IH]; intros [|i] Hi; try done.
  - injection Hi as ->. change (alter f 0 (a :: l)) with (f a :: l).
    rewrite !fmap_cons, !Qsum_cons, Hw. ring.
  - change (alter f (S i) (b :: l)) with (b :: alter f i l).
    rewrite !fmap_cons, !Qsum_cons, (IH i Hi). ring.
Qed.

Lemma total_volume_alter3_same (f : PrismGraphNode → PrismGraphNode)
    (x y z : nat) (graph : PrismGraph) :
  (∀ node, node_volume (f node) = node_volume node) →
  total_volume (alter3 f x y z graph) = total_volume graph.
Proof.
  intros Hf. unfold total_volume, alter3. f_equal.
  apply fmap_alter_same. intros gx. f_equal.
  apply fmap_alter_same. intros gy. f_equal.
  by apply fmap_alter_same.
Qed.

Lemma total_volume_alter3 (f : PrismGraphNode → PrismGraphNode)
    (x y z : nat) (graph : PrismGraph) (node : PrismGraphNode) (d : Q) :
  index3 graph x y z = Some node →
  (node_volume (f node) == node_volume node + d)%Q →
  (total_volume (alter3 f x y z graph) == total_volume graph + d)%Q.
Proof.
  intros Hnode Hf. unfold index3 in Hnode.
  destruct (graph !! x) as [gx|] eqn:Hgx; [|done]. cbn in Hnode.
  destruct (gx !! y) as [gy|] eqn:Hgy; [|done]. cbn in Hnode.
  unfold total_volume, alter3.
  apply (Qsum_fmap_alter _ _ _ _ gx); [done|].
  apply (Qsum_fmap_alter _ _ _ _ gy); [done|].
  by apply (Qsum_fmap_alter _ _ _ _ node).
Qed.

Lemma total_volume_deleted nx ny nz (graph : PrismGraph) (x y z : nat)
    (node : PrismGraphNode) (p : Prism) :
  index3 graph x y z = Some node →
  prism node = Some p →
  (total_volume (deleted nx ny nz x y z graph)
   == total_volume graph - volume p)%Q.
Proof.
  intros Hnode Hp. unfold deleted.
  assert (∀ (os : list Orientation) (g : PrismGraph),
            total_volume (foldl (sever nx ny nz x y z) g os) = total_volume g)
    as ->.
  { induction os as [|o os IH]; intros g; [done|].
    cbn [foldl]. rewrite IH. unfold sever.
    destruct (neighbour_pos nx ny nz o x y z) as [[[i j] k]|]; [|done].
    by apply total_volume_alter3_same. }
  rewrite (total_volume_alter3 _ _ _ _ _ node (- volume p)) by
    (try done; unfold node_volume; rewrite Hp; cbn; ring).
  ring.
Qed.

(** One call in range: it returns, and takes the returned volume off the
    total. *)
Lemma delete_prism_volume nx ny nz (graph : PrismGraph) (x y z : nat) :
  rect nx ny nz graph → in_range nx ny nz x y z →
  ∃ freed graph',
    delete_prism graph x y z = Some (freed, graph') ∧
    rect nx ny nz graph' ∧
    (total_volume graph' == total_volume graph - freed)%Q.
Proof.
  intros Hrect Hin.
  destruct (proj2 (index3_rect graph _ _ _ _ _ _ Hrect) Hin) as [node Hnode].
  destruct (prism node) as [p|] eqn:Hp.
  - exists (volume p), (deleted nx ny nz x y z graph).
    split; [by eapply delete_prism_present|].
    split; [by apply deleted_rect|]. by eapply total_volume_deleted.
  - exists 0%Q, graph. split; [|split; [done|ring]].
    unfold delete_prism. rewrite Hnode. cbn. by rewrite Hp.
Qed.

Lemma delete_all_volume nx ny nz (cells : list (nat * nat * nat))
    (graph : PrismGraph) :
  rect nx ny nz graph →
  Forall (λ c, in_range nx ny nz c.1.1 c.1.2 c.2) cells →
  ∃ freed graph',
    delete_all graph cells = Some (freed, graph') ∧
    length freed = length cells ∧
    (total_volume graph - Qsum freed == total_volume graph')%Q.
Proof.
  intros Hrect Hcells. revert graph Hrect.
  induction Hcells as [|[[x y] z] cells Hin _ IH]; intros graph Hrect.
  - exists [], graph. split; [done|]. split; [done|].
    change (Qsum []) with 0%Q. ring.
  - destruct (delete_prism_volume nx ny nz graph x y z Hrect Hin)
      as (v & g1 & Hdel & Hrect1 & Hvol).
    destruct (IH g1 Hrect1) as (vs & g2 & Hall & Hlen & Hvols).
    exists (v :: vs), g2. cbn [delete_all]. rewrite Hdel.
    cbn [mbind option_bind].
    rewrite Hall. cbn [mbind option_bind].
    split; [done|]. split; [by cbn; rewrite Hlen|].
    rewrite Qsum_cons, <- Hvols, Hvol. ring.
Qed.

(** C5: for a graph built from valid sequences and any sequence of calls
    of [delete_prism] in range, every call returns, and the total volume at
    the start minus the sum of the returned values is the sum of the
    volumes of the prisms still present. *)
Theorem volume_conservation (x_grid y_grid z_grid : list Q)
    (graph : PrismGraph) (cells : list (nat * nat * nat)) :
  valid_grid x_grid → valid_grid y_grid → valid_grid z_grid →
  PrismGraph_init x_grid y_grid z_grid = Some graph →
  Forall (λ c, in_range (length x_grid - 1) (length y_grid - 1)
                 (length z_grid - 1) c.1.1 c.1.2 c.2) cells →
  ∃ freed graph',
    delete_all graph cells = Some (freed, graph') ∧
    length freed = length cells ∧
    (total_volume graph - Qsum freed == total_volume graph')%Q.
Proof.
  intros _ _ _ Hinit Hcells.
  rewrite PrismGraph_init_closed in Hinit. injection Hinit as <-.
  eapply delete_all_volume; [|done]. apply rect_tabulate3.
Qed.

(** ** The effect of a deletion *)

(** C6, as the specification words it, fails: the loop of [delete_prism]
    asks [get_neighbour] for the cell next to the deleted one, and does not
    look at the link map of the deleted cell.  With two cells side by side,
    once the right cell is deleted the left cell holds no link to the right;
    the right cell still holds its link to the left.  Deleting the left cell
    then removes that entry of the right cell, to which the left cell holds
    no link. *)
Lemma delete_prism_stale_link_counterexample :
  PrismGraph_init [0; 1; 2]%Q [0; 1]%Q [0; 1]%Q = Some two_cells ∧
  delete_prism two_cells 1 0 0 = Some (1%Q, two_cells_right_deleted) ∧
  present two_cells_right_deleted (0, 0, 0) ∧
  ¬ has_link two_cells_right_deleted (0, 0, 0) RIGHT ∧
  has_link two_cells_right_deleted (1, 0, 0) LEFT ∧
  delete_prism two_cells_right_deleted 0 0 0
    = Some (1%Q, two_cells_both_deleted) ∧
  ¬ has_link two_cells_both_deleted (1, 0, 0) LEFT.
Proof.
  repeat split.
  - eexists. split; [vm_compute; reflexivity|]. vm_compute. eauto.
  - intros (node & Hnode & Hlink). vm_compute in Hnode.
    injection Hnode as <-. vm_compute in Hlink. by destruct Hlink.
  - eexists. split; [vm_compute; reflexivity|]. vm_compute. eauto.
  - intros (node & Hnode & Hlink). vm_compute in Hnode.
    injection Hnode as <-. vm_compute in Hlink. by destruct Hlink.
Qed.

(** C6, amended: on a cell in range whose prism is present, [delete_prism]
    returns the volume of that prism; in the graph after the call that cell
    has no prism and the link map it had; every cell next to it in the grid,
    in a direction D, has lost the entry keyed by the reverse of D, if it had
    one, and nothing else, whether or not the deleted cell held a link to
    it; every other cell is unchanged. *)
Theorem delete_prism_frame (nx ny nz : nat) (graph : PrismGraph)
    (x y z : nat) (node : PrismGraphNode) (p : Prism) :
  rect nx ny nz graph →
  index3 graph x y z = Some node →
  prism node = Some p →
  ∃ graph',
    delete_prism graph x y z = Some (volume p, graph') ∧
    rect nx ny nz graph' ∧
    at_pos graph' (x, y, z) = Some (mkNode None (neighbour_map node)) ∧
    (∀ o q, neighbour_pos nx ny nz o x y z = Some q →
       at_pos graph' q = pop (reverse o) <$> at_pos graph q) ∧
    (∀ r, r ≠ (x, y, z) →
       (∀ o, neighbour_pos nx ny nz o x y z ≠ Some r) →
       at_pos graph' r = at_pos graph r).
Proof.
  intros Hrect Hnode Hp.
  exists (deleted nx ny nz x y z graph).
  split; [by eapply delete_prism_present|].
  split; [by apply deleted_rect|].
  split; [|split].
  - rewrite at_pos_deleted_self. unfold at_pos. cbn [fst snd].
    by rewrite Hnode.
  - intros o q Hq. by apply at_pos_deleted_neighbour.
  - intros r Hr Hno. by apply at_pos_deleted_other.
Qed.

(** ** Reachable graphs *)

Lemma neighbour_cases nx ny nz x y z (r : nat * nat * nat) :
  (∃ o, neighbour_pos nx ny nz o x y z = Some r) ∨
  (∀ o, neighbour_pos nx ny nz o x y z ≠ Some r).
Proof.
  destruct (decide (Exists (λ o, neighbour_pos nx ny nz o x y z = Some r)
                      all_orientations)) as [Hex|Hno].
  - left. apply Exists_exists in Hex as (o & _ & Ho). eauto.
  - right. intros o Ho. apply Hno, Exists_exists. exists o.
    split; [|done]. destruct o; compute_done.
Qed.

Section reachable.
Context (x_grid y_grid z_grid : list Q).
Let nx := length x_grid - 1.
Let ny := length y_grid - 1.
Let nz := length z_grid - 1.
Let grid := prism_grid x_grid y_grid z_grid.

Lemma initial_graph_consistent :
  consistent x_grid y_grid z_grid (initial_graph x_grid y_grid z_grid).
Proof.
  split; [apply rect_tabulate3|].
  intros x y z node Hnode.
  assert (in_range nx ny nz x y z) as Hin.
  { apply (index3_rect (initial_graph x_grid y_grid z_grid));
      [apply rect_tabulate3|by rewrite Hnode]. }
  destruct (index3_initial_graph x_grid y_grid z_grid x y z Hin)
    as (xs & ys & zs & _ & _ & _ & Hp & Hnode').
  rewrite Hnode' in Hnode. injection Hnode as <-. cbn [prism neighbour_map].
  split; [by right|].
  intros o. rewrite lookup_initial_links.
  destruct (neighbour_pos (length x_grid - 1) (length y_grid - 1)
              (length z_grid - 1) o x y z) as [[[x' y'] z']|] eqn:Hq;
    [|done].
  cbn [mbind option_bind].
  destruct (neighbour_pos_in_range _ _ _ _ _ _ _ _ Hin Hq) as [_ Hq'].
  destruct (index3_initial_graph x_grid y_grid z_grid x' y' z' Hq')
    as (xs' & ys' & zs' & _ & _ & _ & Hp' & Hnode'').
  unfold at_pos. cbn [fst snd]. by rewrite Hnode'', Hp'.
Qed.

(** What a deletion does to the prism of a cell. *)
Lemma deleted_prism (graph : PrismGraph) (x y z : nat) (r : nat * nat * nat) :
  at_pos (deleted nx ny nz x y z graph) r ≫= (λ n, Some (prism n))
    = at_pos graph r ≫=
        (λ n, Some (if decide (r = (x, y, z)) then None else prism n)).
Proof.
  destruct (decide (r = (x, y, z))) as [->|Hr].
  { rewrite at_pos_deleted_self. by destruct (at_pos graph (x, y, z)). }
  destruct (neighbour_cases nx ny nz x y z r) as [[o Ho]|Hno].
  - rewrite (at_pos_deleted_neighbour _ _ _ _ _ _ _ _ _ Ho).
    by destruct (at_pos graph r).
  - by rewrite at_pos_deleted_other.
Qed.

(** What a deletion does to the link map of a cell. *)
Lemma deleted_links (graph : PrismGraph) (x y z : nat) (r : nat * nat * nat)
    (o : Orientation) :
  at_pos (deleted nx ny nz x y z graph) r
      ≫= (λ n, Some (neighbour_map n !! o))
    = at_pos graph r ≫=
        (λ n, Some (if decide (neighbour_pos nx ny nz (reverse o) x y z
                               = Some r)
                    then None else neighbour_map n !! o)).
Proof.
  destruct (decide (r = (x, y, z))) as [->|Hr].
  { rewrite at_pos_deleted_self. case_decide as Hself.
    - by destruct (neighbour_pos_ne _ _ _ _ _ _ _ Hself).
    - by destruct (at_pos graph (x, y, z)). }
  destruct (neighbour_cases nx ny nz x y z r) as [[o' Ho']|Hno'].
  - rewrite (at_pos_deleted_neighbour _ _ _ _ _ _ _ _ _ Ho').
    destruct (at_pos graph r) as [n|]; [|done]. cbn. f_equal.
    rewrite lookup_delete.
    destruct (decide (reverse o' = o)) as [<-|Hne].
    + by rewrite reverse_involutive, decide_True.
    + rewrite decide_False; [done|]. intros Ho.
      apply Hne. rewrite (neighbour_pos_inj _ _ _ _ _ _ _ _ _ Ho' Ho).
      apply reverse_involutive.
  - rewrite at_pos_deleted_other by done.
    case_decide as Ho; [by destruct (Hno' _ Ho)|done].
Qed.

Lemma deleted_consistent (graph : PrismGraph) (x y z : nat)
    (node : PrismGraphNode) :
  consistent x_grid y_grid z_grid graph →
  index3 graph x y z = Some node →
  consistent x_grid y_grid z_grid (deleted nx ny nz x y z graph).
Proof.
  intros [Hrect Hcons] Hnode.
  assert (in_range nx ny nz x y z) as Hin.
  { apply (index3_rect graph); [done|by rewrite Hnode]. }
  pose proof (deleted_rect nx ny nz graph x y z Hrect) as Hrect'.
  split; [done|]. fold nx ny nz grid.
  intros x1 y1 z1 node' Hnode'.
  assert (in_range nx ny nz x1 y1 z1) as Hin1.
  { apply (index3_rect (deleted nx ny nz x y z graph)); [done|].
    by rewrite Hnode'. }
  destruct (proj2 (index3_rect graph _ _ _ _ _ _ Hrect) Hin1) as [n1 Hn1].
  destruct (Hcons _ _ _ _ Hn1) as [Hprism Hlinks].
  fold nx ny nz grid in Hlinks.
  pose proof (deleted_prism graph x y z (x1, y1, z1)) as Hp.
  unfold at_pos in Hp. cbn [fst snd] in Hp.
  rewrite Hnode', Hn1 in Hp. cbn in Hp. injection Hp as Hp.
  split.
  { rewrite Hp. case_decide; [by left|done]. }
  intros o.
  pose proof (deleted_links graph x y z (x1, y1, z1) o) as Hl.
  unfold at_pos in Hl. cbn [fst snd] in Hl.
  rewrite Hnode', Hn1 in Hl. cbn in Hl. injection Hl as Hl.
  rewrite Hl. clear Hl.
  destruct (decide (neighbour_pos nx ny nz (reverse o) x y z
                    = Some (x1, y1, z1))) as [Hrev|Hrev].
  - apply (proj2 (neighbour_pos_reverse nx ny nz o x1 y1 z1 x y z Hin1 Hin))
      in Hrev.
    rewrite Hrev.
    cbn [mbind option_bind]. rewrite at_pos_deleted_self.
    unfold at_pos. cbn [fst snd]. by rewrite Hnode.
  - rewrite Hlinks.
    destruct (neighbour_pos nx ny nz o x1 y1 z1) as [[[x2 y2] z2]|] eqn:Hq;
      [|done].
    cbn [mbind option_bind].
    destruct (neighbour_pos_in_range _ _ _ _ _ _ _ _ Hin1 Hq) as [_ Hin2].
    cbn [fst snd] in Hin2.
    assert ((x2, y2, z2) ≠ (x, y, z)) as Hne.
    { intros [= -> -> ->]. apply Hrev.
      by apply (proj1 (neighbour_pos_reverse nx ny nz o x1 y1 z1 x y z
                         Hin1 Hin)). }
    pose proof (deleted_prism graph x y z (x2, y2, z2)) as Hp2.
    destruct (at_pos graph (x2, y2, z2)) as [n2|],
             (at_pos (deleted nx ny nz x y z graph) (x2, y2, z2)) as [n2'|];
      cbn in Hp2; try done.
    rewrite decide_False in Hp2 by done.
    injection Hp2 as Hp2. cbn [mbind option_bind]. by rewrite Hp2.
Qed.

Lemma reachable_consistent (graph : PrismGraph) :
  reachable x_grid y_grid z_grid graph →
  consistent x_grid y_grid z_grid graph.
Proof.
  induction 1 as [graph Hinit|graph x y z freed graph' _ IH Hdel].
  - rewrite PrismGraph_init_closed in Hinit. injection Hinit as <-.
    apply initial_graph_consistent.
  - pose proof IH as [Hrect _].
    unfold delete_prism in Hdel.
    destruct (index3 graph x y z) as [node|] eqn:Hnode; [|done].
    cbn [mbind option_bind] in Hdel.
    destruct (prism node) as [p|] eqn:Hp.
    + pose proof (delete_prism_present _ _ _ graph x y z node p
                    Hrect Hnode Hp) as Hdel'.
      unfold delete_prism in Hdel'. rewrite Hnode in Hdel'.
      cbn [mbind option_bind] in Hdel'. rewrite Hp in Hdel'.
      rewrite Hdel' in Hdel. injection Hdel as _ <-.
      by eapply deleted_consistent.
    + by injection Hdel as _ <-.
Qed.
End reachable.

(** C7: in every reachable graph, for a cell A and the cell B next to it in
    direction D: if both prisms are present, the link map of A has an entry
    for D, which is the prism of B, and the link map of B has an entry for the
    reverse of D, which is the prism of A; and if the prism of B is absent,
    the link map of A has no entry for D. *)
Theorem link_consistency (x_grid y_grid z_grid : list Q) (graph : PrismGraph)
    (o : Orientation) (xa ya za : nat) (b : nat * nat * nat) :
  reachable x_grid y_grid z_grid graph →
  neighbour_pos (length x_grid - 1) (length y_grid - 1) (length z_grid - 1)
    o xa ya za = Some b →
  (present graph (xa, ya, za) → present graph b →
     ∃ nodeA nodeB pa pb,
       at_pos graph (xa, ya, za) = Some nodeA ∧ prism nodeA = Some pa ∧
       at_pos graph b = Some nodeB ∧ prism nodeB = Some pb ∧
       neighbour_map nodeA !! o = Some pb ∧
       neighbour_map nodeB !! reverse o = Some pa) ∧
  (¬ present graph b → ¬ has_link graph (xa, ya, za) o).
Proof.
  intros Hreach Hb.
  destruct (reachable_consistent _ _ _ _ Hreach) as [Hrect Hcons].
  destruct b as [[xb yb] zb]. split.
  - intros (nodeA & HA & [pa Hpa]) (nodeB & HB & [pb Hpb]).
    exists nodeA, nodeB, pa, pb. repeat (split; [done|]).
    unfold at_pos in HA, HB. cbn [fst snd] in HA, HB.
    assert (in_range (length x_grid - 1) (length y_grid - 1)
              (length z_grid - 1) xa ya za) as HinA.
    { apply (index3_rect graph); [done|by rewrite HA]. }
    assert (in_range (length x_grid - 1) (length y_grid - 1)
              (length z_grid - 1) xb yb zb) as HinB.
    { apply (index3_rect graph); [done|by rewrite HB]. }
    destruct (Hcons _ _ _ _ HA) as [[HpA|HpA] HlA]; [congruence|].
    destruct (Hcons _ _ _ _ HB) as [[HpB|HpB] HlB]; [congruence|].
    split.
    + rewrite HlA, Hb. cbn [mbind option_bind]. unfold at_pos.
      cbn [fst snd]. rewrite HB. cbn [mbind option_bind].
      rewrite Hpb. cbn [mbind option_bind]. congruence.
    + apply (neighbour_pos_reverse _ _ _ _ _ _ _ _ _ _ HinA HinB) in Hb.
      rewrite HlB, Hb. cbn [mbind option_bind]. unfold at_pos.
      cbn [fst snd]. rewrite HA. cbn [mbind option_bind].
      rewrite Hpa. cbn [mbind option_bind]. congruence.
  - intros Habsent (nodeA & HA & [pb Hlink]). apply Habsent.
    unfold at_pos in HA. cbn [fst snd] in HA.
    destruct (Hcons _ _ _ _ HA) as [_ HlA].
    rewrite HlA, Hb in Hlink. cbn [mbind option_bind] in Hlink.
    destruct (at_pos graph (xb, yb, zb)) as [nodeB|] eqn:HB; [|done].
    cbn [mbind option_bind] in Hlink.
    destruct (prism nodeB) as [p|] eqn:HpB; [|done].
    exists nodeB. split; [done|]. rewrite HpB. eauto.
Qed.

(** ** to_mesh on two cells side by side *)

(** C1 against the code: both prisms of [two_cells] are present and the left
    cell holds a link to the right one, so the face of the left cell that
    looks right should be suppressed; [to_mesh] emits its two triangles all
    the same, and all 24 triangles of the two prisms, because it hands
    [triangle_slice] the values of the link map; with the keys the face
    would have been left out. *)
Theorem to_mesh_keeps_shared_face :
  PrismGraph_init [0; 1; 2]%Q [0; 1]%Q [0; 1]%Q = Some two_cells ∧
  neighbour_pos 2 1 1 RIGHT 0 0 0 = Some (1, 0, 0) ∧
  present two_cells (0, 0, 0) ∧ present two_cells (1, 0, 0) ∧
  has_link two_cells (0, 0, 0) RIGHT ∧
  to_mesh two_cells !! 2 = Some ((1, 0, 0), (1, 1, 1), (1, 0, 1))%Q ∧
  to_mesh two_cells !! 3 = Some ((1, 0, 0), (1, 1, 0), (1, 1, 1))%Q ∧
  length (to_mesh two_cells) = 24 ∧
  (at_pos two_cells (0, 0, 0) ≫= λ node, prism node ≫= λ p,
     Some (length (triangle_slice p (Some (dict_keys (neighbour_map node))))))
    = Some 10.
Proof.
  split; [reflexivity|]. split; [reflexivity|].
  split; [eexists; split; [vm_compute; reflexivity|vm_compute; eauto]|].
  split; [eexists; split; [vm_compute; reflexivity|vm_compute; eauto]|].
  split; [eexists; split; [vm_compute; reflexivity|vm_compute; eauto]|].
  repeat split; vm_compute; reflexivity.
Qed.

(** ** Instances *)

Lemma valid_grid_012 : valid_grid [0; 1; 2]%Q.
Proof. split; [simpl; lia|]. simpl. repeat split; reflexivity. Defined.

Lemma valid_grid_01 : valid_grid [0; 1]%Q.
Proof. split; [simpl; lia|]. simpl. repeat split; reflexivity. Defined.

Lemma delete_absent_witness :
  delete_prism two_cells_right_deleted 1 0 0
    = Some (0%Q, two_cells_right_deleted).
Proof.
  exact (proj1 (delete_absent two_cells_right_deleted 1 0 0 _
                  eq_refl eq_refl)).
Defined.

Lemma PrismGraph_init_spec_witness :
  ∃ graph,
    PrismGraph_init [0; 1; 2]%Q [0; 1]%Q [0; 1]%Q = Some graph ∧
    rect 2 1 1 graph.
Proof.
  destruct (PrismGraph_init_spec [0; 1; 2]%Q [0; 1]%Q [0; 1]%Q
              valid_grid_012 valid_grid_01 valid_grid_01)
    as (graph & Hinit & Hrect & _).
  exists graph. by split.
Defined.

Lemma volume_conservation_witness :
  ∃ freed graph',
    delete_all two_cells [(1, 0, 0); (0, 0, 0); (1, 0, 0)]
      = Some (freed, graph') ∧
    length freed = 3 ∧
    (total_volume two_cells - Qsum freed == total_volume graph')%Q.
Proof.
  apply (volume_conservation [0; 1; 2]%Q [0; 1]%Q [0; 1]%Q two_cells
           [(1, 0, 0); (0, 0, 0); (1, 0, 0)]
           valid_grid_012 valid_grid_01 valid_grid_01).
  - reflexivity.
  - repeat constructor; simpl; lia.
Defined.

Lemma delete_prism_frame_witness :
  ∃ graph',
    delete_prism two_cells_right_deleted 0 0 0 = Some (1%Q, graph') ∧
    at_pos graph' (0, 0, 0) = Some (mkNode None ∅).
Proof.
  destruct (delete_prism_frame 2 1 1 two_cells_right_deleted 0 0 0
              (mkNode (Some (make_prism (0, 1) (0, 1) (0, 1))%Q) ∅)
              (make_prism (0, 1) (0, 1) (0, 1))%Q)
    as (graph' & Hdel & _ & Hself & _).
  - split; [reflexivity|]. vm_compute. repeat constructor.
  - vm_compute. reflexivity.
  - reflexivity.
  - exists graph'. split; [|exact Hself].
    rewrite Hdel. reflexivity.
Defined.

Lemma link_consistency_witness :
  (present two_cells (0, 0, 0) → present two_cells (1, 0, 0) →
     ∃ nodeA nodeB pa pb,
       at_pos two_cells (0, 0, 0) = Some nodeA ∧ prism nodeA = Some pa ∧
       at_pos two_cells (1, 0, 0) = Some nodeB ∧ prism nodeB = Some pb ∧
       neighbour_map nodeA !! RIGHT = Some pb ∧
       neighbour_map nodeB !! reverse RIGHT = Some pa) ∧
  (¬ present two_cells (1, 0, 0) → ¬ has_link two_cells (0, 0, 0) RIGHT).
Proof.
  apply (link_consistency [0; 1; 2]%Q [0; 1]%Q [0; 1]%Q two_cells
           RIGHT 0 0 0 (1, 0, 0)).
  - apply reachable_init. reflexivity.
  - reflexivity.
Defined.

(** * Further properties *)

(** ** Orientation.reverse and Orientation.get_neighbour *)

(** X1: [reverse] pairs the six directions: it is its own inverse and no
    direction is its own reverse. *)
Theorem reverse_pairs (o : Orientation) :
  reverse (reverse o) = o ∧ reverse o ≠ o.
Proof. by destruct o. Qed.

(** X2: on a grid of cells, a step in a direction and a step in the reverse
    direction lead back: if [get_neighbour] finds a cell next to (x, y, z),
    then from the position of that cell [get_neighbour] with the reverse
    direction returns the cell at (x, y, z). *)
Theorem get_neighbour_reverse {A} (grid : list (list (list A)))
    (nx ny nz : nat) (o : Orientation) (x y z : nat) (a : A) :
  rect nx ny nz grid →
  in_range nx ny nz x y z →
  get_neighbour o grid x y z = Some (Some a) →
  let q := neighbour_index o x y z in
  index3 grid q.1.1 q.1.2 q.2 = Some a ∧
  get_neighbour (reverse o) grid q.1.1 q.1.2 q.2
    = Some (index3 grid x y z) ∧
  is_Some (index3 grid x y z).
Proof.
  intros Hrect Hin Hget q. subst q.
  rewrite (get_neighbour_rect grid nx ny nz) in Hget by done.
  injection Hget as Hget.
  destruct (neighbour_pos nx ny nz o x y z) as [[[x' y'] z']|] eqn:Hq;
    [|done].
  destruct (neighbour_pos_in_range _ _ _ _ _ _ _ _ Hin Hq) as [Hidx Hin'].
  rewrite <- Hidx. cbn [fst snd] in *. cbn in Hget. unfold at_pos in Hget.
  cbn [fst snd] in Hget. split; [done|].
  split; [|by apply (index3_rect grid nx ny nz)].
  rewrite (get_neighbour_rect grid nx ny nz) by done.
  apply (neighbour_pos_reverse _ _ _ _ _ _ _ _ _ _ Hin Hin') in Hq.
  by rewrite Hq.
Qed.

(** X3: on a grid of cells and a position in range, [get_neighbour] never
    raises; it returns [None] exactly at the face of the grid in its
    direction, and the cell one step further otherwise. *)
Theorem get_neighbour_boundary {A} (grid : list (list (list A)))
    (nx ny nz : nat) (o : Orientation) (x y z : nat) :
  rect nx ny nz grid →
  in_range nx ny nz x y z →
  let at_face :=
    match o with
    | DOWN => y = 0 | UP => y = ny - 1
    | LEFT => x = 0 | RIGHT => x = nx - 1
    | INTO => z = nz - 1 | OUT_OF => z = 0
    end in
  (at_face → get_neighbour o grid x y z = Some None) ∧
  (¬ at_face →
     ∃ a, get_neighbour o grid x y z = Some (Some a) ∧
          at_pos grid (neighbour_index o x y z) = Some a).
Proof.
  intros Hrect Hin at_face. subst at_face.
  rewrite (get_neighbour_rect grid nx ny nz) by done.
  pose proof Hin as (Hx & Hy & Hz). split.
  - intros Hface. f_equal. unfold neighbour_pos.
    destruct o; case_decide; try done; lia.
  - intros Hface.
    assert (∃ q, neighbour_pos nx ny nz o x y z = Some q) as [q Hq].
    { unfold neighbour_pos. destruct o; case_decide; eauto; lia. }
    destruct (neighbour_pos_in_range _ _ _ _ _ _ _ _ Hin Hq) as [<- Hin'].
    apply (index3_rect grid) in Hin'; [|done]. destruct Hin' as [a Ha].
    exists a. rewrite Hq. cbn. unfold at_pos. by rewrite Ha.
Qed.

(** X4: off the grid the six directions differ.  [DOWN], [LEFT] and
    [OUT_OF] at index 0 return [None] without a look at the grid, whatever
    the grid and the other two indices are; [UP], [RIGHT] and [INTO] raise
    [IndexError] when [x] is not an index of the grid. *)
Theorem get_neighbour_off_grid {A} (grid : list (list (list A)))
    (x y z : nat) :
  get_neighbour DOWN grid x 0 z = Some None ∧
  get_neighbour LEFT grid 0 y z = Some None ∧
  get_neighbour OUT_OF grid x y 0 = Some None ∧
  (length grid ≤ x →
     get_neighbour UP grid x y z = None ∧
     get_neighbour RIGHT grid x y z = None ∧
     get_neighbour INTO grid x y z = None).
Proof.
  repeat split.
  - unfold get_neighbour. by rewrite lookup_ge_None_2.
  - unfold get_neighbour. rewrite bool_decide_eq_true_2 by lia.
    unfold index3. rewrite lookup_ge_None_2; [done|lia].
  - unfold get_neighbour. by rewrite lookup_ge_None_2.
Qed.

(** ** delete_prism: errors, repetition, order *)

Lemma node_eq (n1 n2 : PrismGraphNode) :
  prism n1 = prism n2 →
  (∀ o, neighbour_map n1 !! o = neighbour_map n2 !! o) →
  n1 = n2.
Proof.
  destruct n1 as [p1 m1], n2 as [p2 m2]. cbn. intros -> Hm.
  f_equal. by apply map_eq.
Qed.

Lemma lookup_delete_effect nx ny nz x y z r node o :
  neighbour_map (delete_effect nx ny nz x y z r node) !! o
    = if decide (neighbour_pos nx ny nz (reverse o) x y z = Some r)
      then None else neighbour_map node !! o.
Proof.
  unfold delete_effect. cbn [neighbour_map]. rewrite map_lookup_filter.
  destruct (neighbour_map node !! o) as [p|]; cbn; [|by case_decide].
  case_guard; case_decide; done.
Qed.

(** The graph after a deletion, cell by cell. *)
Lemma at_pos_deleted nx ny nz (graph : PrismGraph) x y z r :
  at_pos (deleted nx ny nz x y z graph) r
    = delete_effect nx ny nz x y z r <$> at_pos graph r.
Proof.
  destruct (decide (r = (x, y, z))) as [->|Hr].
  { rewrite at_pos_deleted_self.
    destruct (at_pos graph (x, y, z)) as [n|]; [|done]. cbn. f_equal.
    apply node_eq; [cbn; by rewrite decide_True|].
    intros o. rewrite lookup_delete_effect.
    case_decide as Hself; [|done].
    by destruct (neighbour_pos_ne _ _ _ _ _ _ _ Hself). }
  destruct (neighbour_cases nx ny nz x y z r) as [[o' Ho']|Hno].
  - rewrite (at_pos_deleted_neighbour _ _ _ _ _ _ _ _ _ Ho').
    destruct (at_pos graph r) as [n|]; [|done]. cbn. f_equal.
    apply node_eq; [cbn; by rewrite decide_False|].
    intros o. rewrite lookup_delete_effect. cbn [pop neighbour_map].
    rewrite lookup_delete.
    destruct (decide (reverse o' = o)) as [<-|Hne].
    + by rewrite reverse_involutive, decide_True.
    + rewrite decide_False; [done|]. intros Ho. apply Hne.
      rewrite (neighbour_pos_inj _ _ _ _ _ _ _ _ _ Ho' Ho).
      apply reverse_involutive.
  - rewrite at_pos_deleted_other by done.
    destruct (at_pos graph r) as [n|]; [|done]. cbn. f_equal.
    apply node_eq; [cbn; by rewrite decide_False|].
    intros o. rewrite lookup_delete_effect.
    case_decide as Ho; [by destruct (Hno _ Ho)|done].
Qed.

(** The two ways a call that returns can go. *)
Lemma delete_prism_cases nx ny nz (graph : PrismGraph) x y z freed graph' :
  rect nx ny nz graph →
  delete_prism graph x y z = Some (freed, graph') →
  ∃ node, index3 graph x y z = Some node ∧
    ((prism node = None ∧ freed = 0%Q ∧ graph' = graph) ∨
     (∃ p, prism node = Some p ∧ freed = volume p ∧
           graph' = deleted nx ny nz x y z graph)).
Proof.
  intros Hrect Hdel.
  destruct (index3 graph x y z) as [node|] eqn:Hnode;
    [|by unfold delete_prism in Hdel; rewrite Hnode in Hdel].
  exists node. split; [done|].
  destruct (prism node) as [p|] eqn:Hp.
  - right. exists p.
    rewrite (delete_prism_present nx ny nz graph x y z node p) in Hdel
      by done.
    by injection Hdel as <- <-.
  - left. unfold delete_prism in Hdel. rewrite Hnode in Hdel.
    cbn in Hdel. rewrite Hp in Hdel. by injection Hdel as <- <-.
Qed.

Lemma delete_prism_rect nx ny nz (graph : PrismGraph) x y z freed graph' :
  rect nx ny nz graph →
  delete_prism graph x y z = Some (freed, graph') →
  rect nx ny nz graph'.
Proof.
  intros Hrect Hdel.
  destruct (delete_prism_cases _ _ _ _ _ _ _ _ _ Hrect Hdel)
    as (node & _ & [(_ & _ & ->)|(p & _ & _ & ->)]); [done|].
  by apply deleted_rect.
Qed.

(** X5: on a grid of cells, [delete_prism] returns for every position in
    range and raises [IndexError] for every position out of range: it never
    takes an index off the grid for an empty cell. *)
Theorem delete_prism_in_range (nx ny nz : nat) (graph : PrismGraph)
    (x y z : nat) :
  rect nx ny nz graph →
  (in_range nx ny nz x y z → is_Some (delete_prism graph x y z)) ∧
  (¬ in_range nx ny nz x y z → delete_prism graph x y z = None).
Proof.
  intros Hrect. split.
  - intros Hin.
    destruct (delete_prism_volume nx ny nz graph x y z Hrect Hin)
      as (freed & graph' & -> & _). eauto.
  - intros Hout. unfold delete_prism.
    destruct (index3 graph x y z) as [node|] eqn:Hnode; [|done].
    destruct Hout. apply (index3_rect graph); [done|]. by rewrite Hnode.
Qed.

(** X6: after any call of [delete_prism] that returns, the cell has no
    prism, and a second call on the same cell returns 0 and changes
    nothing. *)
Theorem delete_prism_twice (nx ny nz : nat) (graph : PrismGraph)
    (x y z : nat) (freed : Q) (graph' : PrismGraph) :
  rect nx ny nz graph →
  delete_prism graph x y z = Some (freed, graph') →
  ¬ present graph' (x, y, z) ∧
  delete_prism graph' x y z = Some (0%Q, graph').
Proof.
  intros Hrect Hdel.
  assert (∃ node', index3 graph' x y z = Some node' ∧ prism node' = None)
    as (node' & Hnode' & Hp').
  { destruct (delete_prism_cases _ _ _ _ _ _ _ _ _ Hrect Hdel)
      as (node & Hnode & [(Hp & _ & ->)|(p & Hp & _ & ->)]); [eauto|].
    pose proof (at_pos_deleted nx ny nz graph x y z (x, y, z)) as Hself.
    unfold at_pos in Hself. cbn [fst snd] in Hself.
    rewrite Hnode in Hself. eexists. split; [exact Hself|].
    cbn. by rewrite decide_True. }
  split.
  - intros (n & Hn & [p Hp]). unfold at_pos in Hn. cbn [fst snd] in Hn.
    congruence.
  - unfold delete_prism. rewrite Hnode'. cbn. by rewrite Hp'.
Qed.

(** A call that returns takes away the prism of its cell and no other. *)
Lemma present_after_delete (nx ny nz : nat) (graph : PrismGraph)
    (x y z : nat) (freed : Q) (graph' : PrismGraph) (r : nat * nat * nat) :
  rect nx ny nz graph →
  delete_prism graph x y z = Some (freed, graph') →
  present graph' r ↔ present graph r ∧ r ≠ (x, y, z).
Proof.
  intros Hrect Hdel.
  destruct (delete_prism_cases _ _ _ _ _ _ _ _ _ Hrect Hdel)
    as (node & Hnode & [(Hp & _ & ->)|(p & Hp & _ & ->)]).
  - split; [|by intros [? _]]. intros Hr. split; [done|].
    intros ->. destruct Hr as (n & Hn & [q Hq]).
    unfold at_pos in Hn. cbn [fst snd] in Hn. congruence.
  - unfold present. rewrite at_pos_deleted. split.
    + intros (n' & Hn' & [q Hq]).
      destruct (at_pos graph r) as [n|] eqn:Hn; [|done].
      injection Hn' as <-. cbn in Hq.
      case_decide; [done|]. split; [|done]. exists n. split; [done|].
      by rewrite Hq.
    + intros [(n & Hn & [q Hq]) Hne]. rewrite Hn. eexists. split; [done|].
      cbn. rewrite decide_False by done. by rewrite Hq.
Qed.

Lemma grid_eq {A} (nx ny nz : nat) (g1 g2 : list (list (list A))) :
  rect nx ny nz g1 → rect nx ny nz g2 →
  (∀ x y z, index3 g1 x y z = index3 g2 x y z) →
  g1 = g2.
Proof.
  intros Hr1 Hr2 Heq.
  apply (list_eq_same_length _ _ nx); [by destruct Hr2|by destruct Hr1|].
  intros x gx1 gx2 Hx Hgx1 Hgx2.
  destruct (rect_lookup _ _ _ _ _ _ Hr1 Hgx1) as [Hl1 _].
  destruct (rect_lookup _ _ _ _ _ _ Hr2 Hgx2) as [Hl2 _].
  apply (list_eq_same_length _ _ ny); [done..|].
  intros y gy1 gy2 Hy Hgy1 Hgy2.
  apply (list_eq_same_length _ _ nz);
    [exact (rect_lookup2 _ _ _ _ _ _ _ _ Hr2 Hgx2 Hgy2)
    |exact (rect_lookup2 _ _ _ _ _ _ _ _ Hr1 Hgx1 Hgy1)|].
  intros z a b Hz Ha Hb. specialize (Heq x y z). unfold index3 in Heq.
  rewrite Hgx1, Hgx2 in Heq. cbn in Heq. rewrite Hgy1, Hgy2 in Heq.
  cbn in Heq. congruence.
Qed.

Lemma delete_effect_comm nx ny nz x y z x' y' z' r node :
  delete_effect nx ny nz x y z r (delete_effect nx ny nz x' y' z' r node)
  = delete_effect nx ny nz x' y' z' r (delete_effect nx ny nz x y z r node).
Proof.
  apply node_eq.
  - cbn. by repeat case_decide.
  - intros o. rewrite !lookup_delete_effect. by repeat case_decide.
Qed.

Lemma deleted_comm nx ny nz (graph : PrismGraph) x y z x' y' z' :
  rect nx ny nz graph →
  deleted nx ny nz x y z (deleted nx ny nz x' y' z' graph)
  = deleted nx ny nz x' y' z' (deleted nx ny nz x y z graph).
Proof.
  intros Hrect. apply (grid_eq nx ny nz); [by do 2 apply deleted_rect..|].
  intros x1 y1 z1.
  change (at_pos (deleted nx ny nz x y z (deleted nx ny nz x' y' z' graph))
            (x1, y1, z1)
          = at_pos (deleted nx ny nz x' y' z' (deleted nx ny nz x y z graph))
              (x1, y1, z1)).
  rewrite !at_pos_deleted.
  destruct (at_pos graph (x1, y1, z1)) as [n|]; [|done]. cbn. f_equal.
  apply delete_effect_comm.
Qed.

(** One call in range, as a function of the node it finds. *)
Lemma delete_prism_step nx ny nz (graph : PrismGraph) x y z node :
  rect nx ny nz graph →
  index3 graph x y z = Some node →
  delete_prism graph x y z
    = Some (node_volume node,
            if prism node is Some _ then deleted nx ny nz x y z graph else graph).
Proof.
  intros Hrect Hnode. unfold node_volume.
  destruct (prism node) as [p|] eqn:Hp.
  - by eapply delete_prism_present.
  - unfold delete_prism. rewrite Hnode. cbn. by rewrite Hp.
Qed.

(** X7: two calls of [delete_prism] on different cells commute: in either
    order each call returns the same value and the graph after both is the
    same. *)
Theorem delete_prism_commute (nx ny nz : nat) (graph : PrismGraph)
    (x y z x' y' z' : nat) :
  rect nx ny nz graph →
  in_range nx ny nz x y z →
  in_range nx ny nz x' y' z' →
  (x, y, z) ≠ (x', y', z') →
  ∃ freed freed' graph',
    delete_all graph [(x, y, z); (x', y', z')]
      = Some ([freed; freed'], graph') ∧
    delete_all graph [(x', y', z'); (x, y, z)]
      = Some ([freed'; freed], graph').
Proof.
  intros Hrect Hin Hin' Hne.
  destruct (proj2 (index3_rect graph _ _ _ _ _ _ Hrect) Hin) as [n Hn].
  destruct (proj2 (index3_rect graph _ _ _ _ _ _ Hrect) Hin') as [n' Hn'].
  assert (∀ (g : PrismGraph) x1 y1 z1 x2 y2 z2 n1 n2,
            rect nx ny nz g → (x1, y1, z1) ≠ (x2, y2, z2) →
            index3 g x1 y1 z1 = Some n1 → index3 g x2 y2 z2 = Some n2 →
            delete_all g [(x1, y1, z1); (x2, y2, z2)]
              = Some ([node_volume n1; node_volume n2],
                      let g1 := if prism n1 is Some _
                                then deleted nx ny nz x1 y1 z1 g else g in
                      if prism n2 is Some _ then deleted nx ny nz x2 y2 z2 g1 else g1))
    as Htwo.
  { intros g x1 y1 z1 x2 y2 z2 n1 n2 Hg Hdiff H1 H2. cbn [delete_all].
    rewrite (delete_prism_step nx ny nz g x1 y1 z1 n1) by done.
    cbn [mbind option_bind].
    set (g1 := if prism n1 is Some _ then deleted nx ny nz x1 y1 z1 g else g).
    assert (rect nx ny nz g1) as Hg1.
    { subst g1. destruct (prism n1); [by apply deleted_rect|done]. }
    assert (∃ n2', index3 g1 x2 y2 z2 = Some n2' ∧ prism n2' = prism n2)
      as (n2' & H2' & Hp2).
    { subst g1. destruct (prism n1); [|eauto].
      pose proof (at_pos_deleted nx ny nz g x1 y1 z1 (x2, y2, z2)) as Hat.
      unfold at_pos in Hat. cbn [fst snd] in Hat. rewrite H2 in Hat.
      eexists. split; [exact Hat|]. cbn. by rewrite decide_False. }
    rewrite (delete_prism_step nx ny nz g1 x2 y2 z2 n2') by done.
    cbn [mbind option_bind]. unfold node_volume. by rewrite Hp2. }
  eexists _, _, _. split.
  - by apply Htwo.
  - rewrite (Htwo graph x' y' z' x y z n' n) by done.
    cbv zeta. do 2 f_equal.
    destruct (prism n), (prism n'); try done.
    by apply deleted_comm.
Qed.

Lemma delete_all_rect (nx ny nz : nat) (cells : list (nat * nat * nat))
    (graph : PrismGraph) (freed : list Q) (graph' : PrismGraph) :
  rect nx ny nz graph →
  delete_all graph cells = Some (freed, graph') →
  rect nx ny nz graph' ∧ length freed = length cells.
Proof.
  revert graph freed.
  induction cells as [|[[x y] z] cells IH]; intros graph freed Hrect Hall.
  - by injection Hall as <- <-.
  - cbn [delete_all] in Hall.
    destruct (delete_prism graph x y z) as [[v g1]|] eqn:Hdel; [|done].
    cbn [mbind option_bind] in Hall.
    destruct (delete_all g1 cells) as [[vs g2]|] eqn:Hrest; [|done].
    cbn in Hall. injection Hall as <- <-.
    destruct (IH g1 vs (delete_prism_rect _ _ _ _ _ _ _ _ _ Hrect Hdel) Hrest)
      as [Hrect' Hlen].
    split; [done|]. cbn. by rewrite Hlen.
Qed.

Lemma present_after_delete_all (nx ny nz : nat)
    (cells : list (nat * nat * nat)) (graph : PrismGraph) (freed : list Q)
    (graph' : PrismGraph) (r : nat * nat * nat) :
  rect nx ny nz graph →
  delete_all graph cells = Some (freed, graph') →
  present graph' r ↔ present graph r ∧ r ∉ cells.
Proof.
  revert graph freed.
  induction cells as [|[[x y] z] cells IH]; intros graph freed Hrect Hall.
  - injection Hall as _ <-. split; [|by intros [? _]].
    intros Hr. split; [done|]. apply not_elem_of_nil.
  - cbn [delete_all] in Hall.
    destruct (delete_prism graph x y z) as [[v g1]|] eqn:Hdel; [|done].
    cbn [mbind option_bind] in Hall.
    destruct (delete_all g1 cells) as [[vs g2]|] eqn:Hrest; [|done].
    cbn in Hall. injection Hall as _ <-.
    rewrite (IH g1 vs (delete_prism_rect _ _ _ _ _ _ _ _ _ Hrect Hdel) Hrest).
    rewrite (present_after_delete nx ny nz graph x y z v g1 r Hrect Hdel).
    rewrite not_elem_of_cons. tauto.
Qed.

(** X8: a sequence of calls of [delete_prism] that all return keeps the
    shape of the grid, returns one value per call, and leaves a prism
    present exactly if it was present at the start and its cell is not among
    those deleted. *)
Theorem delete_all_present (nx ny nz : nat) (graph : PrismGraph)
    (cells : list (nat * nat * nat)) (freed : list Q) (graph' : PrismGraph) :
  rect nx ny nz graph →
  delete_all graph cells = Some (freed, graph') →
  rect nx ny nz graph' ∧
  length freed = length cells ∧
  ∀ r, present graph' r ↔ present graph r ∧ r ∉ cells.
Proof.
  intros Hrect Hall.
  destruct (delete_all_rect _ _ _ _ _ _ _ Hrect Hall) as [Hrect' Hlen].
  repeat (split; [done|]). intros r.
  by eapply present_after_delete_all.
Qed.

(** ** to_mesh and triangle_slice *)

Lemma elem_of_concat {A} (x : A) (ls : list (list A)) :
  x ∈ concat ls ↔ ∃ l, l ∈ ls ∧ x ∈ l.
Proof.
  induction ls as [|l ls IH]; cbn [concat].
  - split; [by intros ?%elem_of_nil|]. by intros (l & ?%elem_of_nil & _).
  - rewrite elem_of_app, IH. split.
    + intros [Hx|(l' & Hl' & Hx)]; [exists l|exists l'];
        (split; [|done]); [left|by right].
    + intros (l' & Hl' & Hx). apply elem_of_cons in Hl' as [->|Hl'];
        [by left|right; eauto].
Qed.

(** The prisms of [present_prisms] are those of the cells. *)
Lemma elem_of_present_prisms (graph : PrismGraph) (p : Prism) :
  p ∈ present_prisms graph ↔
  ∃ r node, at_pos graph r = Some node ∧ prism node = Some p.
Proof.
  unfold present_prisms. rewrite list_elem_of_omap. split.
  - intros (node & Hnode & Hp).
    apply elem_of_concat in Hnode as (gy & Hgy & Hnode).
    apply elem_of_concat in Hgy as (gx & Hgx & Hgy).
    apply list_elem_of_lookup in Hgx as [x Hx].
    apply list_elem_of_lookup in Hgy as [y Hy].
    apply list_elem_of_lookup in Hnode as [z Hz].
    exists (x, y, z), node. split; [|done].
    unfold at_pos, index3. cbn [fst snd]. rewrite Hx. cbn. by rewrite Hy.
  - intros ([[x y] z] & node & Hnode & Hp). exists node. split; [|done].
    unfold at_pos, index3 in Hnode. cbn [fst snd] in Hnode.
    destruct (graph !! x) as [gx|] eqn:Hx; [|done]. cbn in Hnode.
    destruct (gx !! y) as [gy|] eqn:Hy; [|done]. cbn in Hnode.
    apply elem_of_concat. exists gy. split; [|by eapply list_elem_of_lookup_2].
    apply elem_of_concat. exists gx.
    split; by eapply list_elem_of_lookup_2.
Qed.

Lemma present_prisms_nil (graph : PrismGraph) :
  present_prisms graph = [] ↔ ∀ r, ¬ present graph r.
Proof.
  split.
  - intros Hnil r (node & Hnode & [p Hp]).
    assert (p ∈ present_prisms graph) as Hin
      by (apply elem_of_present_prisms; eauto).
    rewrite Hnil in Hin. by apply elem_of_nil in Hin.
  - intros Hno. destruct (present_prisms graph) as [|p ps] eqn:Hps; [done|].
    assert (p ∈ present_prisms graph) as Hin by (rewrite Hps; by left).
    apply elem_of_present_prisms in Hin as (r & node & Hnode & Hp).
    destruct (Hno r). exists node. split; [done|]. by rewrite Hp.
Qed.

Lemma to_mesh_row (n_y : list PrismGraphNode) :
  (node ← n_y;
   match prism node with
   | Some p => triangle_slice p (Some (dict_values (neighbour_map node)))
   | None => []
   end)
  = omap prism n_y ≫= λ p, rectangles p ≫= faces.
Proof.
  induction n_y as [|node n_y IH]; [done|].
  rewrite bind_cons, IH. cbn [omap list_omap].
  destruct (prism node) as [p|]; [|done].
  by rewrite triangle_slice_values, bind_cons.
Qed.

Lemma to_mesh_present_prisms (graph : PrismGraph) :
  to_mesh graph = present_prisms graph ≫= λ p, rectangles p ≫= faces.
Proof.
  unfold to_mesh, present_prisms.
  induction graph as [|n_x graph IH]; [done|].
  rewrite bind_cons, IH. cbn [concat].
  rewrite concat_app, omap_app, bind_app. f_equal.
  clear IH. induction n_x as [|n_y n_x IH]; [done|].
  rewrite bind_cons, IH, to_mesh_row. cbn [concat].
  by rewrite omap_app, bind_app.
Qed.

(** X9: the mesh is made of the full slices, twelve triangles each, of the
    prisms that are present, in the order of the cells (x outermost, z
    innermost); it is empty exactly when no cell has a prism. *)
Theorem to_mesh_traversal (graph : PrismGraph) :
  to_mesh graph = (present_prisms graph ≫= λ p, rectangles p ≫= faces) ∧
  (∀ p, p ∈ present_prisms graph ↔
        ∃ r node, at_pos graph r = Some node ∧ prism node = Some p) ∧
  (to_mesh graph = [] ↔ ∀ r, ¬ present graph r).
Proof.
  split; [apply to_mesh_present_prisms|].
  split; [apply elem_of_present_prisms|].
  rewrite <- present_prisms_nil, to_mesh_present_prisms.
  destruct (present_prisms graph) as [|p ps]; [done|].
  rewrite bind_cons. split; [|done].
  intros Hnil. apply (f_equal length) in Hnil.
  rewrite length_app, length_all_faces in Hnil. done.
Qed.

(** X10: once every cell that had a prism has been deleted, the mesh is
    empty. *)
Theorem to_mesh_all_deleted (nx ny nz : nat) (graph : PrismGraph)
    (cells : list (nat * nat * nat)) (freed : list Q) (graph' : PrismGraph) :
  rect nx ny nz graph →
  delete_all graph cells = Some (freed, graph') →
  (∀ r, present graph r → r ∈ cells) →
  to_mesh graph' = [] ∧ count_present graph' = 0.
Proof.
  intros Hrect Hall Hcover.
  assert (present_prisms graph' = []) as Hnil.
  { apply present_prisms_nil. intros r Hr.
    apply (present_after_delete_all nx ny nz cells graph freed graph' r
             Hrect Hall) in Hr as [Hp Hnot].
    by apply Hnot, Hcover. }
  split; [by rewrite to_mesh_present_prisms, Hnil|].
  unfold count_present. unfold present_prisms in Hnil.
  induction (concat (concat graph')) as [|node l IH]; [done|].
  cbn [omap list_omap] in Hnil. rewrite filter_cons.
  destruct (prism node) as [p|] eqn:Hp; [done|].
  rewrite decide_False by (by intros [? ?]). by apply IH.
Qed.

Lemma py_in_orientations (o : Orientation) (os : list Orientation) :
  py_in (ObjOrientation o) (ObjOrientation <$> os) = false ↔ o ∉ os.
Proof.
  induction os as [|o' os IH]; [by split; [intros _; apply not_elem_of_nil|]|].
  cbn [fmap list_fmap py_in existsb py_eq].
  rewrite not_elem_of_cons, orb_false_iff, <- IH.
  unfold py_in. by rewrite bool_decide_eq_false.
Qed.

(** X11: called with a collection of directions, [triangle_slice] leaves out
    the faces with these directions and no others: it returns the two
    triangles of each of the other faces, in the order of the faces, so
    12 minus 2 for each direction of the six that occurs in the
    collection. *)
Theorem triangle_slice_suppress (p : Prism) (os : list Orientation) :
  triangle_slice p (Some (ObjOrientation <$> os))
    = (unsuppressed os p ≫= faces) ∧
  length (triangle_slice p (Some (ObjOrientation <$> os)))
    + 2 * length (filter (λ o, o ∈ os) all_orientations) = 12.
Proof.
  assert (triangle_slice p (Some (ObjOrientation <$> os))
          = unsuppressed os p ≫= faces) as Heq.
  { unfold triangle_slice, unsuppressed.
    assert (match Some (ObjOrientation <$> os) with
            | Some ((_ :: _) as s) => s
            | _ => []
            end = ObjOrientation <$> os) as -> by (by destruct os).
    f_equal. apply list_filter_iff. intros r. apply py_in_orientations. }
  split; [done|]. rewrite Heq.
  unfold unsuppressed, rectangles, all_orientations.
  rewrite !filter_cons, !filter_nil. cbn [orientation].
  repeat case_decide; try done;
    rewrite ?bind_cons, ?length_app, ?length_faces; done.
Qed.

(** ** The prisms and the volume of a new graph *)

Lemma strictly_increasing_breakpoints (l : list Q) (i : nat) (xs : Q * Q) :
  strictly_increasing l → breakpoints l !! i = Some xs → (xs.1 < xs.2)%Q.
Proof.
  destruct xs as [lo hi]. revert i.
  induction l as [|a l IH]; intros i Hinc Hi; [done|].
  destruct l as [|b l]; [done|].
  destruct Hinc as [Hab Hinc].
  apply lookup_breakpoints in Hi as [Hlo Hhi].
  destruct i as [|i].
  - cbn in Hlo, Hhi. by injection Hlo as <-; injection Hhi as <-.
  - apply (IH i Hinc). apply lookup_breakpoints. by split.
Qed.

(** X12: built from three strictly increasing sequences, every cell holds a
    prism that is a box with positive extent on each axis; in exact
    arithmetic (the product of [volume] taken over the rationals, without
    rounding, underflow or wrap-around) its volume is positive. *)
Theorem PrismGraph_init_valid_prisms (x_grid y_grid z_grid : list Q)
    (graph : PrismGraph) (x y z : nat) (node : PrismGraphNode) :
  strictly_increasing x_grid →
  strictly_increasing y_grid →
  strictly_increasing z_grid →
  PrismGraph_init x_grid y_grid z_grid = Some graph →
  index3 graph x y z = Some node →
  ∃ p, prism node = Some p ∧ valid_prism p ∧ (0 < volume p)%Q.
Proof.
  intros Hx Hy Hz Hinit Hnode.
  rewrite PrismGraph_init_closed in Hinit. injection Hinit as <-.
  assert (in_range (length x_grid - 1) (length y_grid - 1)
            (length z_grid - 1) x y z) as Hin.
  { apply (index3_rect (initial_graph x_grid y_grid z_grid));
      [apply rect_tabulate3|by rewrite Hnode]. }
  destruct (index3_initial_graph x_grid y_grid z_grid x y z Hin)
    as (xs & ys & zs & Hxs & Hys & Hzs & _ & Hnode').
  rewrite Hnode' in Hnode. injection Hnode as <-.
  pose proof (strictly_increasing_breakpoints _ _ _ Hx Hxs) as Hdx.
  pose proof (strictly_increasing_breakpoints _ _ _ Hy Hys) as Hdy.
  pose proof (strictly_increasing_breakpoints _ _ _ Hz Hzs) as Hdz.
  exists (make_prism xs ys zs). split; [done|].
  split; [by exists xs, ys, zs|].
  destruct xs as [x0 x1], ys as [y0 y1], zs as [z0 z1].
  by apply box_volume_pos.
Qed.

Lemma Qsum_fmap_ext {A} (f g : A → Q) (l : list A) :
  (∀ a, a ∈ l → (f a == g a)%Q) →
  (Qsum (f <$> l) == Qsum (g <$> l))%Q.
Proof.
  induction l as [|a l IH]; intros Hfg; [done|].
  rewrite !fmap_cons, !Qsum_cons, IH, (Hfg a) by
    (try (by left); intros; apply Hfg; by right).
  done.
Qed.

Lemma Qsum_scale {A} (c : Q) (f : A → Q) (l : list A) :
  (Qsum ((λ a, c * f a)%Q <$> l) == c * Qsum (f <$> l))%Q.
Proof.
  induction l as [|a l IH]; [cbn; ring|].
  rewrite !fmap_cons, !Qsum_cons, IH. ring.
Qed.

(** Summing over the indices of a list is summing over the list. *)
Lemma Qsum_seq_lookup {A} (f : nat → Q) (g : A → Q) (l : list A) :
  (∀ i a, l !! i = Some a → (f i == g a)%Q) →
  (Qsum (f <$> seq 0 (length l)) == Qsum (g <$> l))%Q.
Proof.
  revert f. induction l as [|a l IH]; intros f Hfg; [done|].
  cbn [length seq]. rewrite <- fmap_S_seq, !fmap_cons, <- list_fmap_compose.
  rewrite !Qsum_cons, (Hfg 0 a eq_refl).
  rewrite (IH (f ∘ S)); [done|]. intros i b Hi. by apply (Hfg (S i)).
Qed.

Lemma Qsum_breakpoints (l : list Q) :
  (Qsum ((λ xs : Q * Q, xs.2 - xs.1) <$> breakpoints l) == span l)%Q.
Proof.
  unfold span. induction l as [|a l IH]; [cbn; ring|].
  destruct l as [|b l]; [cbn; ring|].
  change (breakpoints (a :: b :: l)) with ((a, b) :: breakpoints (b :: l)).
  rewrite fmap_cons, Qsum_cons, IH, last_cons_cons. cbn [head default fst snd].
  unfold id. ring.
Qed.

(** X13: in exact arithmetic (sums and products over the rationals, without
    rounding or wrap-around), the volumes of the prisms of a new graph add
    up to the volume of the box the three sequences span:
    (last x - first x) times (last y - first y) times (last z - first z),
    whatever the order of the points in between. *)
Theorem total_volume_initial (x_grid y_grid z_grid : list Q)
    (graph : PrismGraph) :
  PrismGraph_init x_grid y_grid z_grid = Some graph →
  (total_volume graph == span x_grid * span y_grid * span z_grid)%Q.
Proof.
  intros Hinit. rewrite PrismGraph_init_closed in Hinit.
  injection Hinit as <-.
  rewrite <- !Qsum_breakpoints.
  unfold total_volume, initial_graph, tabulate3. cbv zeta.
  rewrite <- !length_breakpoints.
  set (grid := prism_grid x_grid y_grid z_grid).
  set (bx := breakpoints x_grid). set (by' := breakpoints y_grid).
  set (bz := breakpoints z_grid).
  set (d := λ xs : Q * Q, (xs.2 - xs.1)%Q).
  rewrite <- list_fmap_compose.
  rewrite (Qsum_seq_lookup _ (λ xs, (Qsum (d <$> by') * Qsum (d <$> bz)) * d xs)%Q).
  { rewrite Qsum_scale. ring. }
  intros x xs Hxs. cbn [compose]. rewrite <- list_fmap_compose.
  rewrite (Qsum_seq_lookup _ (λ ys, (d xs * Qsum (d <$> bz)) * d ys)%Q).
  { rewrite Qsum_scale. ring. }
  intros y ys Hys. cbn [compose]. rewrite <- list_fmap_compose.
  rewrite (Qsum_seq_lookup _ (λ zs, (d xs * d ys) * d zs)%Q).
  { rewrite Qsum_scale. ring. }
  intros z zs Hzs. cbn [compose]. unfold node_volume. cbn [prism].
  subst grid. rewrite index3_prism_grid. fold bx by' bz.
  rewrite Hxs, Hys, Hzs. cbn [mbind option_bind].
  destruct xs as [x0 x1], ys as [y0 y1], zs as [z0 z1].
  unfold volume, d. cbn. ring.
Qed.

(** ** Reachable graphs: prisms and link maps *)

Lemma prism_grid_valid (x_grid y_grid z_grid : list Q) (x y z : nat)
    (p : Prism) :
  strictly_increasing x_grid →
  strictly_increasing y_grid →
  strictly_increasing z_grid →
  index3 (prism_grid x_grid y_grid z_grid) x y z = Some p →
  (0 < volume p)%Q.
Proof.
  intros Hx Hy Hz Hp. rewrite index3_prism_grid in Hp.
  destruct (breakpoints x_grid !! x) as [xs|] eqn:Hxs; [|done]. cbn in Hp.
  destruct (breakpoints y_grid !! y) as [ys|] eqn:Hys; [|done]. cbn in Hp.
  destruct (breakpoints z_grid !! z) as [zs|] eqn:Hzs; [|done]. cbn in Hp.
  injection Hp as <-.
  pose proof (strictly_increasing_breakpoints _ _ _ Hx Hxs) as Hdx.
  pose proof (strictly_increasing_breakpoints _ _ _ Hy Hys) as Hdy.
  pose proof (strictly_increasing_breakpoints _ _ _ Hz Hzs) as Hdz.
  destruct xs as [x0 x1], ys as [y0 y1], zs as [z0 z1].
  by apply box_volume_pos.
Qed.

(** X14: deletions keep the shape of the grid and never move or alter a
    prism: in every reachable graph a prism that is present is the one the
    constructor built for its cell, from the points at the indices of the
    cell and the next ones. *)
Theorem reachable_prisms (x_grid y_grid z_grid : list Q) (graph : PrismGraph) :
  reachable x_grid y_grid z_grid graph →
  rect (length x_grid - 1) (length y_grid - 1) (length z_grid - 1) graph ∧
  ∀ x y z node p,
    index3 graph x y z = Some node → prism node = Some p →
    ∃ xs ys zs,
      breakpoints x_grid !! x = Some xs ∧ breakpoints y_grid !! y = Some ys ∧
      breakpoints z_grid !! z = Some zs ∧ p = make_prism xs ys zs.
Proof.
  intros Hreach.
  destruct (reachable_consistent _ _ _ _ Hreach) as [Hrect Hcons].
  split; [done|]. intros x y z node p Hnode Hp.
  destruct (Hcons _ _ _ _ Hnode) as [[Hnone|Hsome] _]; [congruence|].
  rewrite Hp, index3_prism_grid in Hsome.
  destruct (breakpoints x_grid !! x) as [xs|]; [|done]. cbn in Hsome.
  destruct (breakpoints y_grid !! y) as [ys|]; [|done]. cbn in Hsome.
  destruct (breakpoints z_grid !! z) as [zs|]; [|done]. cbn in Hsome.
  exists xs, ys, zs. by injection Hsome as ->.
Qed.

(** X15: in every reachable graph the link map of a cell, whether its own
    prism is present or deleted, has an entry for a direction exactly when
    the grid has a cell next to it in that direction whose prism is present,
    and the entry is that prism: a deleted cell keeps its links to the
    neighbours that remain. *)
Theorem reachable_links (x_grid y_grid z_grid : list Q) (graph : PrismGraph)
    (x y z : nat) (node : PrismGraphNode) (o : Orientation) (p : Prism) :
  reachable x_grid y_grid z_grid graph →
  index3 graph x y z = Some node →
  neighbour_map node !! o = Some p ↔
  ∃ q nodeq,
    neighbour_pos (length x_grid - 1) (length y_grid - 1)
      (length z_grid - 1) o x y z = Some q ∧
    at_pos graph q = Some nodeq ∧ prism nodeq = Some p.
Proof.
  intros Hreach Hnode.
  destruct (reachable_consistent _ _ _ _ Hreach) as [Hrect Hcons].
  destruct (Hcons _ _ _ _ Hnode) as [_ Hlinks]. rewrite Hlinks.
  destruct (neighbour_pos (length x_grid - 1) (length y_grid - 1)
              (length z_grid - 1) o x y z) as [[[x' y'] z']|];
    [|split; [done|by intros (? & ? & ? & _)]].
  cbn [mbind option_bind].
  destruct (at_pos graph (x', y', z')) as [nodeq|] eqn:Hq;
    cbn [mbind option_bind].
  2: { split; [done|]. intros (q & n & [= <-] & Hn & _). congruence. }
  destruct (prism nodeq) as [pq|] eqn:Hpq; cbn [mbind option_bind].
  2: { split; [done|]. intros (q & n & [= <-] & Hn & Hp).
       rewrite Hq in Hn. congruence. }
  destruct (Hcons _ _ _ _ Hq) as [[Hnone|Hsome] _]; [congruence|].
  cbn [fst snd] in Hsome.
  unfold at_pos. cbn [fst snd]. rewrite <- Hsome, Hpq. split.
  - intros [= <-]. by exists (x', y', z'), nodeq.
  - intros (q & n & [= <-] & Hn & Hp).
    unfold at_pos in Hq. cbn [fst snd] in Hq, Hn. congruence.
Qed.

(** X16: in exact arithmetic (the product of [volume] taken over the
    rationals, without rounding, underflow or wrap-around), on a graph
    reached from three strictly increasing sequences a call of
    [delete_prism] never returns a negative number, and returns a positive
    one exactly when the prism of the cell was present. *)
Theorem delete_prism_freed_sign (x_grid y_grid z_grid : list Q)
    (graph : PrismGraph) (x y z : nat) (freed : Q) (graph' : PrismGraph) :
  strictly_increasing x_grid →
  strictly_increasing y_grid →
  strictly_increasing z_grid →
  reachable x_grid y_grid z_grid graph →
  delete_prism graph x y z = Some (freed, graph') →
  (0 <= freed)%Q ∧ ((0 < freed)%Q ↔ present graph (x, y, z)).
Proof.
  intros Hx Hy Hz Hreach Hdel.
  destruct (reachable_consistent _ _ _ _ Hreach) as [Hrect Hcons].
  destruct (delete_prism_cases _ _ _ _ _ _ _ _ _ Hrect Hdel)
    as (node & Hnode & [(Hp & -> & _)|(p & Hp & -> & _)]).
  - split; [done|]. split; [done|].
    intros (n & Hn & [q Hq]). unfold at_pos in Hn. cbn [fst snd] in Hn.
    congruence.
  - destruct (Hcons _ _ _ _ Hnode) as [[Hnone|Hsome] _]; [congruence|].
    rewrite Hp in Hsome. symmetry in Hsome.
    pose proof (prism_grid_valid _ _ _ _ _ _ _ Hx Hy Hz Hsome) as Hpos.
    split; [by apply Qlt_le_weak|]. split; [|done].
    intros _. exists node. split; [done|]. by rewrite Hp.
Qed.

(** ** The loop body of the script *)

Lemma delete_all_app (graph : PrismGraph) (l1 l2 : list (nat * nat * nat)) :
  delete_all graph (l1 ++ l2) =
    '(freed1, graph1) ← delete_all graph l1;
    '(freed2, graph2) ← delete_all graph1 l2;
    Some (freed1 ++ freed2, graph2).
Proof.
  revert graph. induction l1 as [|[[x y] z] l1 IH]; intros graph.
  - cbn. by destruct (delete_all graph l2) as [[? ?]|].
  - cbn [app delete_all].
    destruct (delete_prism graph x y z) as [[v g1]|]; [|done].
    cbn [mbind option_bind]. rewrite IH.
    destruct (delete_all g1 l1) as [[vs1 g2]|]; [|done].
    cbn [mbind option_bind].
    by destruct (delete_all g2 l2) as [[vs2 g3]|].
Qed.

Lemma delete_all_is_Some (nx ny nz : nat) (cells : list (nat * nat * nat))
    (graph : PrismGraph) :
  rect nx ny nz graph →
  is_Some (delete_all graph cells)
  ↔ Forall (λ c, in_range nx ny nz c.1.1 c.1.2 c.2) cells.
Proof.
  intros Hrect. split.
  - revert graph Hrect.
    induction cells as [|[[x y] z] cells IH]; intros graph Hrect Hsome;
      [done|].
    cbn [delete_all] in Hsome.
    destruct (delete_prism graph x y z) as [[v g1]|] eqn:Hdel;
      [|by destruct Hsome].
    cbn [mbind option_bind] in Hsome.
    destruct (delete_all g1 cells) as [[vs g2]|] eqn:Hrest;
      [|by destruct Hsome].
    apply Forall_cons_2.
    + destruct (delete_prism_cases _ _ _ _ _ _ _ _ _ Hrect Hdel)
        as (node & Hnode & _).
      cbn [fst snd]. apply (index3_rect graph); [done|by rewrite Hnode].
    + apply (IH g1); [by eapply delete_prism_rect|by rewrite Hrest].
  - intros Hcells.
    destruct (delete_all_volume nx ny nz cells graph Hrect Hcells)
      as (freed & graph' & -> & _). eauto.
Qed.

Lemma delete_all_total_volume (nx ny nz : nat)
    (cells : list (nat * nat * nat)) (graph : PrismGraph) (freed : list Q)
    (graph' : PrismGraph) :
  rect nx ny nz graph →
  delete_all graph cells = Some (freed, graph') →
  (total_volume graph - Qsum freed == total_volume graph')%Q.
Proof.
  intros Hrect Hall.
  assert (Forall (λ c, in_range nx ny nz c.1.1 c.1.2 c.2) cells) as Hcells.
  { apply (delete_all_is_Some nx ny nz cells graph Hrect).
    by rewrite Hall. }
  destruct (delete_all_volume nx ny nz cells graph Hrect Hcells)
    as (freed' & graph'' & Hall' & _ & Hvol).
  rewrite Hall in Hall'. by injection Hall' as <- <-.
Qed.

Lemma foldl_Qminus (c : Q) (l : list Q) :
  (foldl Qminus c l == c - Qsum l)%Q.
Proof.
  revert c. induction l as [|a l IH]; intros c; [cbn; ring|].
  cbn [foldl]. rewrite IH, Qsum_cons. ring.
Qed.

(** One loop of the script is a sequence of deletions. *)
Lemma delete_line_delete_all (cell : nat → nat * nat * nat) (n : nat)
    (current_volume : Q) (graph : PrismGraph) :
  delete_line cell n (current_volume, graph) =
    '(freed, graph') ← delete_all graph (cell <$> seq 0 n);
    Some (foldl Qminus current_volume freed, graph').
Proof.
  unfold delete_line. generalize (seq 0 n). intros l.
  revert current_volume graph.
  induction l as [|i l IH]; intros cv graph; [done|].
  cbn [foldl fmap list_fmap delete_all mbind option_bind].
  destruct (cell i) as [[x y] z]. cbn [fst snd].
  destruct (delete_prism graph x y z) as [[v g1]|].
  - cbn [mbind option_bind]. rewrite IH.
    by destruct (delete_all g1 (cell <$> l)) as [[vs g2]|].
  - cbn [mbind option_bind]. clear IH. by induction l.
Qed.

(** The loop body, as one sequence of deletions over its cells. *)
Lemma carve_delete_all (nx ny nz : nat) (current_volume : Q)
    (graph : PrismGraph) (a b : nat) :
  rect nx ny nz graph →
  carve current_volume graph a b =
    '(freed, graph') ← delete_all graph (carve_cells nx a b);
    Some (foldl Qminus current_volume freed, graph').
Proof.
  intros Hrect. unfold carve, carve_cells.
  rewrite delete_all_app, delete_line_delete_all.
  replace (length graph) with nx by (by destruct Hrect).
  destruct (delete_all graph ((λ x, (x, a, b)) <$> seq 0 nx))
    as [[f1 g1]|] eqn:H1; [|done].
  cbn [mbind option_bind snd].
  destruct (delete_all_rect _ _ _ _ _ _ _ Hrect H1) as [Hrect1 _].
  rewrite delete_all_app, delete_line_delete_all.
  replace (length g1) with nx by (by destruct Hrect1).
  destruct (delete_all g1 ((λ y, (a, y, b)) <$> seq 0 nx))
    as [[f2 g2]|] eqn:H2; [|done].
  cbn [mbind option_bind snd].
  destruct (delete_all_rect _ _ _ _ _ _ _ Hrect1 H2) as [Hrect2 _].
  rewrite delete_line_delete_all.
  replace (length g2) with nx by (by destruct Hrect2).
  destruct (delete_all g2 ((λ z, (a, b, z)) <$> seq 0 nx))
    as [[f3 g3]|] eqn:H3; [|done].
  cbn [mbind option_bind]. by rewrite !foldl_app.
Qed.

(** X17: when the loop body of the script returns, the grid has kept its
    shape, the running volume has dropped by what the graph has lost, and
    the prisms left are those that were there and are on none of the three
    lines ((x, a, b), (a, y, b) and (a, b, z), for the indices below the
    number of cells along x). *)
Theorem carve_effect (nx ny nz : nat) (current_volume : Q)
    (graph : PrismGraph) (a b : nat) (volume' : Q) (graph' : PrismGraph) :
  rect nx ny nz graph →
  carve current_volume graph a b = Some (volume', graph') →
  rect nx ny nz graph' ∧
  (current_volume - volume' == total_volume graph - total_volume graph')%Q ∧
  ∀ r, present graph' r ↔ present graph r ∧ r ∉ carve_cells nx a b.
Proof.
  intros Hrect Hcarve. rewrite (carve_delete_all nx ny nz) in Hcarve by done.
  destruct (delete_all graph (carve_cells nx a b)) as [[freed g']|] eqn:Hall;
    [|done].
  cbn in Hcarve. injection Hcarve as <- <-.
  split; [by destruct (delete_all_rect _ _ _ _ _ _ _ Hrect Hall)|].
  split.
  - rewrite foldl_Qminus,
      <- (delete_all_total_volume _ _ _ _ _ _ _ Hrect Hall).
    ring.
  - intros r. by eapply present_after_delete_all.
Qed.

(** X18: the three loops of the script all run over the number of cells
    along x.  So on a grid with cells the loop body returns exactly when [a]
    and [b] are indices on the axes they are used on and the grid has at
    least as many cells along y and along z as along x; otherwise it raises
    [IndexError]. *)
Theorem carve_returns (nx ny nz : nat) (current_volume : Q)
    (graph : PrismGraph) (a b : nat) :
  rect nx ny nz graph →
  0 < nx →
  is_Some (carve current_volume graph a b)
  ↔ a < nx ∧ a < ny ∧ b < ny ∧ b < nz ∧ nx ≤ ny ∧ nx ≤ nz.
Proof.
  intros Hrect Hnx.
  assert (is_Some (carve current_volume graph a b)
          ↔ is_Some (delete_all graph (carve_cells nx a b))) as ->.
  { rewrite (carve_delete_all nx ny nz) by done.
    destruct (delete_all graph (carve_cells nx a b)) as [[? ?]|]; cbn;
      split; intros [? ?]; done || eauto. }
  rewrite (delete_all_is_Some nx ny nz) by done.
  unfold carve_cells, in_range.
  rewrite !Forall_app, !Forall_fmap, !Forall_seq. cbn. split.
  - intros (H1 & H2 & H3).
    pose proof (H1 0 ltac:(lia)). pose proof (H2 (nx - 1) ltac:(lia)).
    pose proof (H3 (nx - 1) ltac:(lia)). lia.
  - intros Hall. repeat split; lia.
Qed.

(** ** Instances of the further properties *)

Lemma rect_two_cells : rect 2 1 1 two_cells.
Proof. split; [reflexivity|]. vm_compute. repeat constructor. Defined.

Lemma rect_one_cell : rect 1 1 1 one_cell.
Proof. split; [reflexivity|]. vm_compute. repeat constructor. Defined.

Lemma in_range_two_cells_left : in_range 2 1 1 0 0 0.
Proof. unfold in_range. lia. Defined.

Lemma in_range_two_cells_right : in_range 2 1 1 1 0 0.
Proof. unfold in_range. lia. Defined.

Lemma strictly_increasing_012 : strictly_increasing [0; 1; 2]%Q.
Proof. simpl. repeat split; reflexivity. Defined.

Lemma strictly_increasing_01 : strictly_increasing [0; 1]%Q.
Proof. simpl. repeat split; reflexivity. Defined.

Lemma reachable_two_cells :
  reachable [0; 1; 2]%Q [0; 1]%Q [0; 1]%Q two_cells.
Proof. apply reachable_init. reflexivity. Defined.

Lemma reachable_two_cells_right_deleted :
  reachable [0; 1; 2]%Q [0; 1]%Q [0; 1]%Q two_cells_right_deleted.
Proof.
  apply (reachable_delete _ _ _ two_cells 1 0 0 1%Q);
    [exact reachable_two_cells|reflexivity].
Defined.

Lemma get_neighbour_reverse_witness :
  get_neighbour (reverse RIGHT) two_cells 1 0 0
    = Some (index3 two_cells 0 0 0).
Proof.
  refine (proj1 (proj2 (get_neighbour_reverse two_cells 2 1 1 RIGHT 0 0 0 _
                          rect_two_cells in_range_two_cells_left eq_refl))).
Defined.

Lemma get_neighbour_boundary_witness :
  get_neighbour RIGHT two_cells 1 0 0 = Some None.
Proof.
  refine (proj1 (get_neighbour_boundary two_cells 2 1 1 RIGHT 1 0 0
                   rect_two_cells in_range_two_cells_right) eq_refl).
Defined.

Lemma delete_prism_in_range_witness :
  delete_prism two_cells 2 0 0 = None.
Proof.
  refine (proj2 (delete_prism_in_range 2 1 1 two_cells 2 0 0
                   rect_two_cells) _).
  unfold in_range. lia.
Defined.

Lemma delete_prism_twice_witness :
  ¬ present two_cells_right_deleted (1, 0, 0) ∧
  delete_prism two_cells_right_deleted 1 0 0
    = Some (0%Q, two_cells_right_deleted).
Proof.
  exact (delete_prism_twice 2 1 1 two_cells 1 0 0 1%Q two_cells_right_deleted
           rect_two_cells eq_refl).
Defined.

Lemma delete_prism_commute_witness :
  ∃ freed freed' graph',
    delete_all two_cells [(0, 0, 0); (1, 0, 0)]
      = Some ([freed; freed'], graph') ∧
    delete_all two_cells [(1, 0, 0); (0, 0, 0)]
      = Some ([freed'; freed], graph').
Proof.
  apply (delete_prism_commute 2 1 1 two_cells 0 0 0 1 0 0 rect_two_cells
           in_range_two_cells_left in_range_two_cells_right).
  discriminate.
Defined.

Lemma delete_all_present_witness :
  rect 2 1 1 two_cells_both_deleted ∧
  length [1%Q; 1%Q; 0%Q] = 3 ∧
  (present two_cells_both_deleted (0, 0, 0)
   ↔ present two_cells (0, 0, 0)
     ∧ (0, 0, 0) ∉ [(1, 0, 0); (0, 0, 0); (1, 0, 0)]).
Proof.
  destruct (delete_all_present 2 1 1 two_cells
              [(1, 0, 0); (0, 0, 0); (1, 0, 0)]
              [1%Q; 1%Q; 0%Q] two_cells_both_deleted rect_two_cells eq_refl)
    as (Hrect & Hlen & Hpresent).
  exact (conj Hrect (conj Hlen (Hpresent (0, 0, 0)))).
Defined.

Lemma to_mesh_all_deleted_witness :
  to_mesh two_cells_both_deleted = [] ∧
  count_present two_cells_both_deleted = 0.
Proof.
  apply (to_mesh_all_deleted 2 1 1 two_cells [(1, 0, 0); (0, 0, 0)]
           [1%Q; 1%Q] two_cells_both_deleted rect_two_cells eq_refl).
  intros [[x y] z] (node & Hnode & _).
  assert (in_range 2 1 1 x y z) as (Hx & Hy & Hz).
  { apply (index3_rect two_cells 2 1 1 x y z rect_two_cells).
    unfold at_pos in Hnode. cbn [fst snd] in Hnode. by rewrite Hnode. }
  destruct x as [|[|x]]; [| |lia]; destruct y; try lia; destruct z; try lia.
  - apply list_elem_of_further, list_elem_of_here.
  - apply list_elem_of_here.
Defined.

Lemma PrismGraph_init_valid_prisms_witness :
  ∃ p, Some (make_prism (0, 1) (0, 1) (0, 1))%Q = Some p ∧
       valid_prism p ∧ (0 < volume p)%Q.
Proof.
  exact (PrismGraph_init_valid_prisms [0; 1; 2]%Q [0; 1]%Q [0; 1]%Q
           two_cells 0 0 0
           (mkNode (Some (make_prism (0, 1) (0, 1) (0, 1))%Q)
              (initial_links 2 1 1
                 (prism_grid [0; 1; 2]%Q [0; 1]%Q [0; 1]%Q) 0 0 0))
           strictly_increasing_012 strictly_increasing_01
           strictly_increasing_01 eq_refl eq_refl).
Defined.

Lemma total_volume_initial_witness :
  (total_volume two_cells
   == span [0; 1; 2] * span [0; 1] * span [0; 1])%Q.
Proof.
  exact (total_volume_initial [0; 1; 2]%Q [0; 1]%Q [0; 1]%Q two_cells
           eq_refl).
Defined.

Lemma reachable_prisms_witness :
  rect 2 1 1 two_cells_right_deleted.
Proof.
  exact (proj1 (reachable_prisms [0; 1; 2]%Q [0; 1]%Q [0; 1]%Q
                  two_cells_right_deleted reachable_two_cells_right_deleted)).
Defined.

Lemma reachable_links_witness :
  ({[LEFT := unit_cube]} : gmap Orientation Prism) !! LEFT = Some unit_cube ↔
  ∃ q nodeq,
    neighbour_pos 2 1 1 LEFT 1 0 0 = Some q ∧
    at_pos two_cells_right_deleted q = Some nodeq ∧
    prism nodeq = Some unit_cube.
Proof.
  exact (reachable_links [0; 1; 2]%Q [0; 1]%Q [0; 1]%Q
           two_cells_right_deleted 1 0 0
           (mkNode None {[LEFT := unit_cube]}) LEFT unit_cube
           reachable_two_cells_right_deleted eq_refl).
Defined.

Lemma delete_prism_freed_sign_witness :
  (0 <= 1)%Q ∧ ((0 < 1)%Q ↔ present two_cells (1, 0, 0)).
Proof.
  exact (delete_prism_freed_sign [0; 1; 2]%Q [0; 1]%Q [0; 1]%Q two_cells
           1 0 0 1%Q two_cells_right_deleted
           strictly_increasing_012 strictly_increasing_01
           strictly_increasing_01 reachable_two_cells eq_refl).
Defined.

Lemma carve_effect_witness :
  ∃ volume' graph',
    carve 1%Q one_cell 0 0 = Some (volume', graph') ∧
    rect 1 1 1 graph' ∧
    (1 - volume' == total_volume one_cell - total_volume graph')%Q.
Proof.
  destruct (carve 1%Q one_cell 0 0) as [[volume' graph']|] eqn:Hcarve;
    [|vm_compute in Hcarve; discriminate].
  destruct (carve_effect 1 1 1 1%Q one_cell 0 0 volume' graph'
              rect_one_cell Hcarve) as (Hrect & Hvol & _).
  by exists volume', graph'.
Defined.

Lemma carve_returns_witness :
  is_Some (carve 1%Q two_cells 0 0)
  ↔ 0 < 2 ∧ 0 < 1 ∧ 0 < 1 ∧ 0 < 1 ∧ 2 ≤ 1 ∧ 2 ≤ 1.
Proof.
  apply (carve_returns 2 1 1 1%Q two_cells 0 0 rect_two_cells). lia.
Defined.
